(** * microUrllib.parse: percent-encoding and decoding of URL components

    A shallow embedding of [microUrllib/parse.py] and the properties of its
    quoting engine: the byte unescaper [unquote_to_bytes], the non-ASCII
    segmenter [split_on_non_ascii], the text decoder [unquote], the [Quoter]
    class with the module-level cache [_safe_quoters], and the encoders
    [quote] and [quote_from_bytes]. *)

From Stdlib Require Import NArith Ascii String List Lia.
From Stdlib.Strings Require Import Byte.
From stdpp Require Import base option list gmap.

Local Open Scope N_scope.

#[local] Set Warnings "-clear-no-such-hyp".

(** ** Python values *)

(** A [bytes] object is a list of octets, a [str] a list of code points. *)
Abbreviation byte := Byte.byte.
Abbreviation bytes := (list byte).
Abbreviation str := (list N).

#[global] Instance byte_eq_dec : EqDecision byte := Byte.byte_eq_dec.
#[global] Program Instance byte_countable : Countable byte :=
  inj_countable Byte.to_N Byte.of_N Byte.of_to_N.

(** [bytes([n])] for an [n] in [range(256)]. *)
Definition byte_of_N (n : N) : byte := default x00 (Byte.of_N n).

(** [b"..."] and ["..."] literals (the latter for ASCII text only: a
    literal of the proof assistant is a sequence of octets). *)
Definition bytes_lit (s : string) : bytes := list_byte_of_string s.
Definition str_lit (s : string) : str := Byte.to_N <$> list_byte_of_string s.

(** [ord] of the one-character string [chr(b)]. *)
Definition chr (b : byte) : N := Byte.to_N b.

(** The arguments the public functions receive: text, a byte sequence,
    [None] and an int. The last two are neither text nor a byte sequence,
    and cannot be iterated; other values (lists and other iterables among
    them) are outside the model. *)
Inductive value :=
  | VStr (s : str)
  | VBytes (b : bytes)
  | VNone
  | VInt (n : Z).

Inductive exn :=
  | TypeError
  | AttributeError
  | UnicodeEncodeError
  | UnicodeDecodeError.

Inductive result (A : Type) :=
  | Ok (a : A)
  | Raise (e : exn).
Arguments Ok {A} a.
Arguments Raise {A} e.

#[global] Instance result_ret : MRet result := fun A a => Ok a.
#[global] Instance result_bind : MBind result := fun A B f m =>
  match m with Ok a => f a | Raise e => Raise e end.
#[global] Instance result_fmap : FMap result := fun A B f m =>
  match m with Ok a => Ok (f a) | Raise e => Raise e end.

(** [not v] for the values above. *)
Definition falsy (v : value) : bool :=
  match v with
  | VStr s => bool_decide (s = [])
  | VBytes b => bool_decide (b = [])
  | VNone => true
  | VInt n => bool_decide (n = 0%Z)
  end.

(** ** Text codecs of the interpreter: [str.encode] and [bytes.decode] *)

(** The encodings of the model are UTF-8, ASCII and Latin-1, and its error
    policies [strict], [ignore] and [replace]; every other codec name and
    error handler is outside it. *)
Inductive codec := UTF8 | ASCII | LATIN1.
Inductive policy := Strict | Ignore | Replace.

Definition utf8_encode_char (c : N) : option bytes :=
  if c <? 0x80 then Some [byte_of_N c]
  else if c <? 0x800 then
    Some [byte_of_N (0xC0 + c / 0x40); byte_of_N (0x80 + c mod 0x40)]
  else if (0xD800 <=? c) && (c <=? 0xDFFF) then None
  else if c <? 0x10000 then
    Some [byte_of_N (0xE0 + c / 0x1000); byte_of_N (0x80 + (c / 0x40) mod 0x40);
          byte_of_N (0x80 + c mod 0x40)]
  else
    Some [byte_of_N (0xF0 + c / 0x40000); byte_of_N (0x80 + (c / 0x1000) mod 0x40);
          byte_of_N (0x80 + (c / 0x40) mod 0x40); byte_of_N (0x80 + c mod 0x40)].

Definition encode_char (enc : codec) (c : N) : option bytes :=
  match enc with
  | UTF8 => utf8_encode_char c
  | ASCII => if c <? 0x80 then Some [byte_of_N c] else None
  | LATIN1 => if c <? 0x100 then Some [byte_of_N c] else None
  end.

(** [s.encode(enc, err)] *)
Fixpoint str_encode (enc : codec) (err : policy) (s : str) : result bytes :=
  match s with
  | [] => Ok []
  | c :: s' =>
      match encode_char enc c with
      | Some bs => app bs <$> str_encode enc err s'
      | None =>
          match err with
          | Strict => Raise UnicodeEncodeError
          | Ignore => str_encode enc err s'
          | Replace => cons x3f <$> str_encode enc err s'
          end
      end
  end.

(** What a decoder does with an ill-formed sequence, given the decoding of
    the input after it. *)
Definition undecodable (err : policy) (tl : result str) : result str :=
  match err with
  | Strict => Raise UnicodeDecodeError
  | Ignore => tl
  | Replace => cons 0xFFFD <$> tl
  end.

Definition between (lo hi : N) (b : byte) : bool :=
  (lo <=? Byte.to_N b) && (Byte.to_N b <=? hi).

Definition cont (b : byte) : N := Byte.to_N b mod 0x40.

(** UTF-8 decoding; an ill-formed sequence is reported up to the first
    octet that cannot continue it, and decoding resumes there. *)
Fixpoint utf8_decode (err : policy) (bs : bytes) : result str :=
  match bs with
  | [] => Ok []
  | b0 :: r1 =>
      let n0 := Byte.to_N b0 in
      if n0 <? 0x80 then cons n0 <$> utf8_decode err r1
      else if between 0xC2 0xDF b0 then
        match r1 with
        | b1 :: r2 =>
            if between 0x80 0xBF b1
            then cons ((n0 - 0xC0) * 0x40 + cont b1) <$> utf8_decode err r2
            else undecodable err (utf8_decode err r1)
        | [] => undecodable err (utf8_decode err r1)
        end
      else if between 0xE0 0xEF b0 then
        let lo := if n0 =? 0xE0 then 0xA0 else 0x80 in
        let hi := if n0 =? 0xED then 0x9F else 0xBF in
        match r1 with
        | b1 :: r2 =>
            if between lo hi b1 then
              match r2 with
              | b2 :: r3 =>
                  if between 0x80 0xBF b2
                  then cons ((n0 - 0xE0) * 0x1000 + cont b1 * 0x40 + cont b2)
                         <$> utf8_decode err r3
                  else undecodable err (utf8_decode err r2)
              | [] => undecodable err (utf8_decode err r2)
              end
            else undecodable err (utf8_decode err r1)
        | [] => undecodable err (utf8_decode err r1)
        end
      else if between 0xF0 0xF4 b0 then
        let lo := if n0 =? 0xF0 then 0x90 else 0x80 in
        let hi := if n0 =? 0xF4 then 0x8F else 0xBF in
        match r1 with
        | b1 :: r2 =>
            if between lo hi b1 then
              match r2 with
              | b2 :: r3 =>
                  if between 0x80 0xBF b2 then
                    match r3 with
                    | b3 :: r4 =>
                        if between 0x80 0xBF b3
                        then cons ((n0 - 0xF0) * 0x40000 + cont b1 * 0x1000
                                   + cont b2 * 0x40 + cont b3)
                               <$> utf8_decode err r4
                        else undecodable err (utf8_decode err r3)
                    | [] => undecodable err (utf8_decode err r3)
                    end
                  else undecodable err (utf8_decode err r2)
              | [] => undecodable err (utf8_decode err r2)
              end
            else undecodable err (utf8_decode err r1)
        | [] => undecodable err (utf8_decode err r1)
        end
      else undecodable err (utf8_decode err r1)
  end.

Fixpoint ascii_decode (err : policy) (bs : bytes) : result str :=
  match bs with
  | [] => Ok []
  | b0 :: r1 =>
      if Byte.to_N b0 <? 0x80 then cons (Byte.to_N b0) <$> ascii_decode err r1
      else undecodable err (ascii_decode err r1)
  end.

(** [bs.decode(enc, err)] *)
Definition bytes_decode (enc : codec) (err : policy) (bs : bytes) : result str :=
  match enc with
  | UTF8 => utf8_decode err bs
  | ASCII => ascii_decode err bs
  | LATIN1 => Ok (Byte.to_N <$> bs)
  end.

(** [s.split(sep)] for a one-octet separator. *)
Fixpoint bytes_split (sep : byte) (s : bytes) : list bytes :=
  match s with
  | [] => [[]]
  | c :: s' =>
      if decide (c = sep) then [] :: bytes_split sep s'
      else match bytes_split sep s' with
           | h :: t => (c :: h) :: t
           | [] => [[c]]
           end
  end.

(** [s.rstrip(chars)]: the trailing octets that occur in [chars] removed. *)
Fixpoint rstrip (chars : bytes) (s : bytes) : bytes :=
  match s with
  | [] => []
  | c :: s' =>
      match rstrip chars s' with
      | [] => if bool_decide (c ∈ chars) then [] else [c]
      | r => c :: r
      end
  end.

(** ** Module constants *)

Definition MAX_CACHE_SIZE : nat := 20.

Definition _ALWAYS_SAFE : gset byte :=
  list_to_set (bytes_lit "ABCDEFGHIJKLMNOPQRSTUVWXYZ" ++
               bytes_lit "abcdefghijklmnopqrstuvwxyz" ++
               bytes_lit "0123456789" ++ bytes_lit "_.-").

Definition _ALWAYS_SAFE_BYTES : bytes := elements _ALWAYS_SAFE.

(** [_hexdig] is ASCII text; its characters are kept as the octets that
    [(a + b).encode()] turns them into. *)
Definition _hexdig : bytes := bytes_lit "0123456789ABCDEFabcdef".

(** The value of one hexadecimal digit, of either letter case. *)
Definition hex_digit (c : byte) : option N :=
  let n := Byte.to_N c in
  if (48 <=? n) && (n <=? 57) then Some (n - 48)
  else if (65 <=? n) && (n <=? 70) then Some (n - 55)
  else if (97 <=? n) && (n <=? 102) then Some (n - 87)
  else None.

(** [int(s, 16)] on a string of hexadecimal digits. *)
Definition int16 (s : bytes) : N :=
  fold_left (fun acc c => 16 * acc + default 0 (hex_digit c)) s 0.

(** The dictionary comprehension over [_hexdig] twice; a value is the
    one-octet [bytes([int(a + b, 16)])]. *)
Definition _hextobyte : gmap bytes bytes :=
  list_to_map (a ← _hexdig; b ← _hexdig; [([a; b], [byte_of_N (int16 [a; b])])]).

(** The octet of ['%']. *)
Definition pct : byte := x25.

(** ** The decoder *)

(** On a falsy argument the empty byte sequence is returned once
    [string.split] has been looked up, which fails on a value without that
    attribute; so does the call of [split] on a truthy one. *)
Definition unquote_to_bytes (string : value) : result bytes :=
  if falsy string then
    match string with
    | VStr _ | VBytes _ => Ok []
    | _ => Raise AttributeError
    end
  else
    string ← match string with
             | VStr s => str_encode UTF8 Strict s
             | VBytes b => Ok b
             | _ => Raise AttributeError
             end;
    let bits := bytes_split pct string in
    if bool_decide (length bits = 1%nat) then Ok string
    else
      let res := [hd [] bits] in
      let res :=
        fold_left (fun res item =>
                     match _hextobyte !! take 2 item with
                     | Some v => res ++ [v; drop 2 item]
                     | None => res ++ [[pct]; item]
                     end) (tail bits) res in
      Ok (concat res).

(** The loop of [split_on_non_ascii], with its two accumulators. *)
Fixpoint split_loop (s : str) (result : list str) (current : str) : list str :=
  match s with
  | [] =>
      if bool_decide (current = []) then result else result ++ [current]
  | c :: s' =>
      if (0 <=? c) && (c <=? 127) then split_loop s' result (current ++ [c])
      else
        let result :=
          if bool_decide (current = []) then result else result ++ [current] in
        split_loop s' (result ++ [[c]]) []
  end.

Definition split_on_non_ascii (s : str) : list str := split_loop s [] [].

(** The loop of [unquote]: [bits[i]] is unescaped and decoded, [bits[i + 1]]
    is appended as it is, for [i] in [range(0, len(bits), 2)]. *)
Fixpoint unquote_loop (encoding : codec) (errors : policy) (bits : list str)
    (res : list str) : result (list str) :=
  match bits with
  | [] => Ok res
  | bit :: bits' =>
      raw ← unquote_to_bytes (VStr bit);
      text ← bytes_decode encoding errors raw;
      let res := res ++ [text] in
      match bits' with
      | [] => Ok res
      | bit' :: bits'' => unquote_loop encoding errors bits'' (res ++ [bit'])
      end
  end.

Definition unquote (string : value) (encoding : option codec)
    (errors : option policy) : result str :=
  match string with
  | VStr s =>
      if bool_decide (chr pct ∉ s) then Ok s
      else
        let encoding := default UTF8 encoding in
        let errors := default Replace errors in
        let bits := split_on_non_ascii s in
        res ← unquote_loop encoding errors bits [];
        Ok (concat res)
  | _ => Raise TypeError
  end.

(** ** The encoder *)

(** ["%{:02X}".format(b)] *)
Definition hex_upper (d : N) : N := if d <? 10 then 48 + d else 55 + d.

Definition format_02X (b : byte) : str :=
  [chr pct; hex_upper (Byte.to_N b / 16); hex_upper (Byte.to_N b mod 16)].

Module Quoter.

(** An instance: the effective safe set and the per-byte memo. *)
Record t := Build { safe : gset byte; cache : gmap byte str }.

Definition __init__ (safe : bytes) : t :=
  {| safe := _ALWAYS_SAFE ∪ list_to_set safe; cache := ∅ |}.

(** [self.get(b)]: the rendering and the instance after the call. *)
Definition get (self : t) (b : byte) : str * t :=
  match cache self !! b with
  | Some res => (res, self)
  | None =>
      let res := if bool_decide (b ∈ safe self) then [chr b] else format_02X b in
      (res, {| safe := safe self; cache := <[b := res]> (cache self) |})
  end.

End Quoter.

(** The store of the module: the [Quoter] objects allocated so far, and the
    dictionary [_safe_quoters], which refers to them by address. *)
Record state := State {
  heap : list Quoter.t;
  _safe_quoters : gmap bytes nat
}.

Definition initial : state := {| heap := []; _safe_quoters := ∅ |}.

Definition clear_cache (st : state) : state :=
  {| heap := heap st; _safe_quoters := ∅ |}.

(** [Quoter(safe)]: a new object at a fresh address. *)
Definition new_Quoter (safe : bytes) (st : state) : nat * state :=
  (length (heap st),
   {| heap := heap st ++ [Quoter.__init__ safe]; _safe_quoters := _safe_quoters st |}).

(** [quoter.get(b)] on the object at address [quoter] (which every address
    handed out by [new_Quoter] denotes). *)
Definition quoter_get (quoter : nat) (b : byte) (st : state) : str * state :=
  match heap st !! quoter with
  | Some self =>
      let '(res, self) := Quoter.get self b in
      (res, {| heap := <[quoter := self]> (heap st); _safe_quoters := _safe_quoters st |})
  | None => ([], st)
  end.

(** The loop [for char in bs: res += quoter.get(char)]. *)
Fixpoint quote_loop (quoter : nat) (bs : bytes) (res : str) (st : state)
    : str * state :=
  match bs with
  | [] => (res, st)
  | char :: bs' =>
      let '(r, st) := quoter_get quoter char st in
      quote_loop quoter bs' (res ++ r) st
  end.

Definition quote_from_bytes (bs safe : value) (st : state) : result str * state :=
  match bs with
  | VBytes bs =>
      if bool_decide (bs = []) then (Ok [], st)
      else
        let safe :=
          match safe with
          | VStr safe => str_encode ASCII Ignore safe
          | VBytes safe => Ok (filter (fun c => Byte.to_N c < 128) safe)
          | _ => Raise TypeError
          end in
        match safe with
        | Raise e => (Raise e, st)
        | Ok safe =>
            if bool_decide (rstrip (_ALWAYS_SAFE_BYTES ++ safe) bs = [])
            then (bytes_decode UTF8 Strict bs, st)
            else
              let '(quoter, st) :=
                match _safe_quoters st !! safe with
                | Some quoter => (quoter, st)
                | None =>
                    let '(quoter, st) := new_Quoter safe st in
                    (quoter, {| heap := heap st;
                                _safe_quoters := <[safe := quoter]> (_safe_quoters st) |})
                end in
              let '(res, st) := quote_loop quoter bs [] st in
              (Ok res, st)
        end
  | _ => (Raise TypeError, st)
  end.

Definition quote (string safe : value) (encoding : option codec)
    (errors : option policy) (st : state) : result str * state :=
  match string with
  | VStr s =>
      if bool_decide (s = []) then (Ok s, st)
      else
        let encoding := default UTF8 encoding in
        let errors := default Strict errors in
        match str_encode encoding errors s with
        | Ok string => quote_from_bytes (VBytes string) safe st
        | Raise e => (Raise e, st)
        end
  | _ =>
      if bool_decide (encoding ≠ None) then (Raise TypeError, st)
      else if bool_decide (errors ≠ None) then (Raise TypeError, st)
      else quote_from_bytes string safe st
  end.

(** The default of the [safe] parameter. *)
Definition slash : value := VStr (str_lit "/").

(** * Vocabulary of the properties *)

(** ** Segments of a text *)

(** A text of ASCII characters only. *)
Definition ascii_only (x : str) : Prop := Forall (fun c => c <= 127) x.

(** The pending run [current], flushed as the loop does it. *)
Definition flush (current : str) : list str :=
  if bool_decide (current = []) then [] else [current].

(** An element of the result: a non-empty ASCII run or one non-ASCII
    character. *)
Definition chunk (x : str) : Prop :=
  x ≠ [] ∧ (ascii_only x ∨ ∃ c, x = [c] ∧ 127 < c).

(** No two neighbours are both ASCII runs. *)
Fixpoint separated (l : list str) : Prop :=
  match l with
  | x :: (y :: _) as l' => ¬ (ascii_only x ∧ ascii_only y) ∧ separated l'
  | _ => True
  end.

(** ** The hex-escape table and the unescaper *)

(** Lookup in a dictionary built from a list of items. *)
Fixpoint assoc {V} (k : bytes) (l : list (bytes * V)) : option V :=
  match l with
  | [] => None
  | (k', v) :: l => if decide (k' = k) then Some v else assoc k l
  end.

(** What the table holds: the pairs of hexadecimal digits, in either
    letter case, each with the octet of that value. *)
Definition hex_pair (k : bytes) : option bytes :=
  match k with
  | [a; b] =>
      match hex_digit a, hex_digit b with
      | Some x, Some y => Some [byte_of_N (16 * x + y)]
      | _, _ => None
      end
  | _ => None
  end.

(** [sep.join(bits)] *)
Definition bytes_join (sep : byte) (bits : list bytes) : bytes :=
  hd [] bits ++ concat (cons sep <$> tail bits).

(** One segment after a [%]: the octet of its two leading hexadecimal
    digits and the rest, or the [%] and the whole segment. *)
Definition unescape (item : bytes) : bytes :=
  match item with
  | a :: b :: rest =>
      match hex_digit a, hex_digit b with
      | Some x, Some y => byte_of_N (16 * x + y) :: rest
      | _, _ => pct :: item
      end
  | _ => pct :: item
  end.

(** The first segment as it is, then every later segment unescaped. *)
Definition percent_decode (bits : list bytes) : bytes :=
  hd [] bits ++ concat (unescape <$> tail bits).

(** ** Safe sets and renderings *)

(** The normalisation of the [safe] argument, as [quote_from_bytes] does
    it: a text is encoded as ASCII with the [ignore] policy, of a byte
    sequence the octets below 128 are kept, and [None] or an int cannot be
    iterated. *)
Definition normalize_safe (safe : value) : result bytes :=
  match safe with
  | VStr safe => str_encode ASCII Ignore safe
  | VBytes safe => Ok (filter (fun c => Byte.to_N c < 128) safe)
  | _ => Raise TypeError
  end.

(** The Effective Safe Set of a normalised safe set. *)
Definition effective_safe (safe : bytes) : gset byte :=
  _ALWAYS_SAFE ∪ list_to_set safe.

(** The rendering of one octet under an effective safe set. *)
Definition render (eff : gset byte) (b : byte) : str :=
  if bool_decide (b ∈ eff) then [chr b] else format_02X b.

(** An octet below 128. *)
Definition is_ascii_byte (b : byte) : Prop := Byte.to_N b < 128.

(** ** The store *)

(** The memo of a [Quoter] holds renderings under its own safe set. *)
Definition memo_ok (q : Quoter.t) : Prop :=
  ∀ b res, Quoter.cache q !! b = Some res → res = render (Quoter.safe q) b.

(** The invariant of the store: every memo is sound, and every key of
    [_safe_quoters] refers to a [Quoter] whose safe set is the union of the
    Always-Safe set and the key. *)
Definition cache_ok (st : state) : Prop :=
  Forall memo_ok (heap st)
  ∧ ∀ k a, _safe_quoters st !! k = Some a →
      ∃ q, heap st !! a = Some q ∧ Quoter.safe q = _ALWAYS_SAFE ∪ list_to_set k.

(** Objects persist, their safe set never changes, their memo only grows. *)
Definition heap_grows (h h' : list Quoter.t) : Prop :=
  ∀ a q, h !! a = Some q →
    ∃ q', h' !! a = Some q' ∧ Quoter.safe q' = Quoter.safe q
          ∧ Quoter.cache q ⊆ Quoter.cache q'.

(** Every octet of [bs] is in the effective safe set: the input is
    returned without a [Quoter]. *)
Definition all_safe (k : bytes) (bs : bytes) : Prop :=
  Forall (fun b => b ∈ effective_safe k) bs.

#[global] Instance all_safe_dec k bs : Decision (all_safe k bs).
Proof. unfold all_safe. apply _. Defined.

(** [_safe_quoters[safe]], or a new [Quoter] stored under [safe]. *)
Definition get_quoter (safe : bytes) (st : state) : nat * state :=
  match _safe_quoters st !! safe with
  | Some quoter => (quoter, st)
  | None =>
      (length (heap st),
       State (heap st ++ [Quoter.__init__ safe])
             (<[safe := length (heap st)]> (_safe_quoters st)))
  end.

(** The two digits of ["%{:02X}"], as octets. *)
Definition hex_hi (b : byte) : byte := byte_of_N (hex_upper (Byte.to_N b / 16)).
Definition hex_lo (b : byte) : byte := byte_of_N (hex_upper (Byte.to_N b mod 16)).

(** The digits of an escape. *)
Definition upper_hexdig : bytes := bytes_lit "0123456789ABCDEF".

(** ** Calls *)

(** A call of one of the two encoders, with its arguments. *)
Inductive call :=
  | Quote (string safe : value) (encoding : option codec) (errors : option policy)
  | QuoteFromBytes (bs safe : value).

(** What a call returns, and the store after it. *)
Definition run_call (c : call) (st : state) : result str * state :=
  match c with
  | Quote string safe encoding errors => quote string safe encoding errors st
  | QuoteFromBytes bs safe => quote_from_bytes bs safe st
  end.

(** The store after a sequence of calls. *)
Definition run_calls (cs : list call) (st : state) : state :=
  fold_left (fun st c => (run_call c st).2) cs st.

(** The stores a program can be in: the one of a fresh interpreter, and
    those after a call of [quote], [quote_from_bytes] or [clear_cache]. *)
Inductive reachable : state → Prop :=
  | reachable_initial : reachable initial
  | reachable_call c st : reachable st → reachable (run_call c st).2
  | reachable_clear st : reachable st → reachable (clear_cache st).

(** The byte sequence and the [safe] argument with which a call arrives at
    the body of [quote_from_bytes], if it does. *)
Definition call_bytes (c : call) : option (bytes * value) :=
  match c with
  | QuoteFromBytes (VBytes bs) safe => Some (bs, safe)
  | QuoteFromBytes _ _ => None
  | Quote (VStr s) safe encoding errors =>
      if bool_decide (s = []) then None
      else match str_encode (default UTF8 encoding) (default Strict errors) s with
           | Ok bs => Some (bs, safe)
           | Raise _ => None
           end
  | Quote (VBytes bs) safe None None => Some (bs, safe)
  | Quote _ _ _ _ => None
  end.

(** The key under which a call looks up [_safe_quoters], if it gets there:
    the normalised safe set, when some octet of the input is outside the
    effective safe set. *)
Definition cache_key (c : call) : option bytes :=
  match call_bytes c with
  | Some (bs, safe) =>
      match normalize_safe safe with
      | Ok k => if decide (all_safe k bs) then None else Some k
      | Raise _ => None
      end
  | None => None
  end.

(** The rendering of one octet, as the octets of its characters. *)
Definition render_bytes (eff : gset byte) (b : byte) : bytes :=
  if bool_decide (b ∈ eff) then [b] else [pct; hex_hi b; hex_lo b].

(** The [safe] argument of a call, its normalisation when there is one,
    and the distinct normalised safe sets of a sequence of calls. *)
Definition call_safe (c : call) : value :=
  match c with
  | Quote _ safe _ _ => safe
  | QuoteFromBytes _ safe => safe
  end.

Definition normalized (c : call) : option bytes :=
  match normalize_safe (call_safe c) with
  | Ok k => Some k
  | Raise _ => None
  end.

Definition safe_sets (cs : list call) : list bytes :=
  remove_dups (omap normalized cs).

(** Twenty-one calls, each with a safe set of its own and an input that has
    an octet outside it. *)
Definition many_safe_sets : list call :=
  (fun c => QuoteFromBytes (VBytes (bytes_lit " ")) (VBytes [c]))
    <$> bytes_lit "!#$&'()*+,/:;=?@[]^|~".

(** ** The decoder as specified *)

(** The partition the decoder is specified on: the ASCII run before the
    first non-ASCII character, then every non-ASCII character with the
    ASCII run that follows it. A run is empty when two non-ASCII characters
    are adjacent, and at the ends when the text starts or ends with one. *)
Fixpoint ascii_runs (s : str) : str * list (N * str) :=
  match s with
  | [] => ([], [])
  | c :: s' =>
      let '(run, rest) := ascii_runs s' in
      if c <=? 127 then (c :: run, rest) else ([], (c, run) :: rest)
  end.

(** Byte-unescaping, then text decoding, of one ASCII run. *)
Definition decode_run (encoding : codec) (errors : policy) (run : str)
    : result str :=
  raw ← unquote_to_bytes (VStr run);
  bytes_decode encoding errors raw.

(** The decoder in the words of its specification: without a ['%'] the
    text is returned as it is; otherwise every ASCII run of the partition,
    the empty ones too, is unescaped and decoded, every non-ASCII character
    is kept, and the results are concatenated in the order of the input. *)
Definition unquote_spec (s : str) (encoding : option codec)
    (errors : option policy) : result str :=
  if bool_decide (chr pct ∉ s) then Ok s
  else
    let encoding := default UTF8 encoding in
    let errors := default Replace errors in
    let '(run, rest) := ascii_runs s in
    first ← decode_run encoding errors run;
    others ← mapM (fun '(c, run) =>
                     text ← decode_run encoding errors run; Ok (c :: text)) rest;
    Ok (first ++ concat others).

(** The pieces of the segmenter in terms of the specified partition: the
    runs and characters in order, with the empty runs left out. *)
Definition pieces (rest : list (N * str)) : list str :=
  concat ((fun '(c, run) => [c] :: flush run) <$> rest).

(** Every run of the partition except the last one is non-empty: no two
    non-ASCII characters are adjacent. *)
Fixpoint runs_nonempty (rest : list (N * str)) : Prop :=
  match rest with
  | [] => True
  | (_, run) :: rest' => (run ≠ [] ∨ rest' = []) ∧ runs_nonempty rest'
  end.

(** The text starts with an ASCII character and no two of its non-ASCII
    characters are adjacent. *)
Definition alternating (s : str) : Prop :=
  (ascii_runs s).1 ≠ [] ∧ runs_nonempty (ascii_runs s).2.

(** A store that holds a [Quoter]: the one after a first call on an input
    with an unsafe octet, under the default safe set. *)
Definition warmed : state :=
  (run_call (QuoteFromBytes (VBytes (bytes_lit "a b")) slash) initial).2.

(** ** Code points *)

(** A surrogate code point, which UTF-8 does not encode. *)
Definition surrogate (c : N) : Prop := 0xD800 <= c ∧ c <= 0xDFFF.

#[global] Instance surrogate_dec c : Decision (surrogate c).
Proof. unfold surrogate. apply _. Defined.

(** A text that [str.encode("utf-8")] accepts: no lone surrogate, every
    code point within the range of Unicode. *)
Definition encodable (s : str) : Prop :=
  Forall (fun c => c < 0x110000 ∧ ¬ surrogate c) s.

(** * Properties *)

(** ** The documented examples *)

Example unquote_to_bytes_doc :
  unquote_to_bytes (VStr (str_lit "abc%20def")) = Ok (bytes_lit "abc def").
Proof. vm_compute. reflexivity. Qed.

Example unquote_doc :
  unquote (VStr (str_lit "abc%20def")) (Some UTF8) (Some Replace)
  = Ok (str_lit "abc def").
Proof. vm_compute. reflexivity. Qed.

Example unquote_cafe :
  unquote (VStr (str_lit "caf%C3%A9 " ++ [233])) None None
  = Ok (str_lit "caf" ++ [233; 32; 233]).
Proof. vm_compute. reflexivity. Qed.

Example quote_doc :
  (quote (VStr (str_lit "abc def")) slash None None initial).1
  = Ok (str_lit "abc%20def").
Proof. vm_compute. reflexivity. Qed.

Example quote_from_bytes_doc :
  (quote_from_bytes (VBytes (bytes_lit "abc def?")) slash initial).1
  = Ok (str_lit "abc%20def%3F").
Proof. vm_compute. reflexivity. Qed.

Example quote_slash_unsafe :
  (quote (VStr (str_lit "a/b")) (VStr []) None None initial).1
  = Ok (str_lit "a%2Fb").
Proof. vm_compute. reflexivity. Qed.

Example quote_slash_safe :
  (quote (VStr (str_lit "a/b")) slash None None initial).1 = Ok (str_lit "a/b").
Proof. vm_compute. reflexivity. Qed.

(** ** The non-ASCII segmenter *)

Lemma split_loop_acc s result current :
  split_loop s result current = result ++ split_loop s [] current.
Proof.
  revert result current. induction s as [|c s IH]; intros result current; simpl.
  - case_bool_decide; [by rewrite app_nil_r | done].
  - destruct ((0 <=? c) && (c <=? 127)); [apply IH |].
    rewrite (IH (_ ++ [[c]])). symmetry. rewrite (IH (_ ++ [[c]])).
    case_bool_decide; simpl; by rewrite <- ?app_assoc.
Qed.

Lemma split_loop_cons c s current :
  split_loop (c :: s) [] current =
    if bool_decide (c <= 127) then split_loop s [] (current ++ [c])
    else flush current ++ [c] :: split_loop s [] [].
Proof.
  simpl. replace (0 <=? c) with true by (symmetry; apply N.leb_le; lia).
  simpl. destruct (decide (c <= 127)) as [Hc | Hc].
  - rewrite (bool_decide_true _ Hc). apply N.leb_le in Hc. by rewrite Hc.
  - rewrite (bool_decide_false _ Hc). apply N.leb_nle in Hc.
    rewrite Hc, split_loop_acc. unfold flush.
    case_bool_decide; simpl; [done | by rewrite <- ?app_assoc].
Qed.

Lemma split_loop_concat s current :
  concat (split_loop s [] current) = current ++ s.
Proof.
  revert current. induction s as [|c s IH]; intros current.
  - simpl. case_bool_decide; subst; simpl; by rewrite ?app_nil_r.
  - rewrite split_loop_cons. case_bool_decide.
    + by rewrite IH, <- app_assoc.
    + rewrite concat_app. simpl. rewrite IH. unfold flush.
      case_bool_decide; subst; simpl; by rewrite ?app_nil_r.
Qed.

Lemma flush_chunks current : ascii_only current → Forall chunk (flush current).
Proof.
  intros H. unfold flush. case_bool_decide; constructor; [|constructor].
  split; [done | by left].
Qed.

Lemma split_loop_chunks s current :
  ascii_only current → Forall chunk (split_loop s [] current).
Proof.
  revert current. induction s as [|c s IH]; intros current Hcur.
  - apply (flush_chunks _ Hcur).
  - rewrite split_loop_cons. case_bool_decide as Hc.
    + apply IH, Forall_app. split; [done | by constructor].
    + apply Forall_app. split; [by apply flush_chunks |].
      constructor; [| apply IH; constructor].
      split; [done | right; exists c; split; [done | lia]].
Qed.

Lemma separated_non_ascii c l : 127 < c → separated l → separated ([c] :: l).
Proof.
  intros Hc Hl. destruct l as [|y l]; [done |]. split; [| done].
  intros [Hx _]. apply Forall_cons in Hx as [Hx _]. lia.
Qed.

Lemma split_loop_separated s current : separated (split_loop s [] current).
Proof.
  revert current. induction s as [|c s IH]; intros current.
  - simpl. by case_bool_decide.
  - rewrite split_loop_cons. case_bool_decide as Hc; [apply IH |].
    assert (127 < c) as Hc' by lia.
    pose proof (separated_non_ascii c _ Hc' (IH [])) as Hsep.
    unfold flush. case_bool_decide; [done |]. split; [| done].
    intros [_ Hx]. apply Forall_cons in Hx as [Hx _]. lia.
Qed.

Lemma separated_app_inv pre l : separated (pre ++ l) → separated l.
Proof.
  induction pre as [|x pre IH]; [done |]. simpl.
  destruct (pre ++ l) eqn:E; [| intros [_ H]; by apply IH].
  destruct pre, l; [done | done | done | done].
Qed.

Lemma separated_snoc_inv pre x y post :
  separated (pre ++ x :: y :: post) → ¬ (ascii_only x ∧ ascii_only y).
Proof. intros H. apply separated_app_inv in H. by destruct H. Qed.

Lemma last_concat_chunks (pre : list str) c :
  Forall chunk pre → last (concat pre) = Some c →
  ∃ pre' y, pre = pre' ++ [y] ∧ last y = Some c.
Proof.
  intros Hpre Hlast. destruct pre as [|x pre _] using rev_ind; [done |].
  exists pre, x. split; [done |].
  apply Forall_app in Hpre as [_ Hx]. apply Forall_cons in Hx as [[Hx _] _].
  rewrite concat_app in Hlast. simpl in Hlast. rewrite app_nil_r in Hlast.
  destruct x as [|a x _] using rev_ind; [done |].
  rewrite app_assoc, last_snoc in Hlast. by rewrite last_snoc.
Qed.

Lemma chunk_non_ascii y : chunk y → ¬ ascii_only y → ∃ c, y = [c] ∧ 127 < c.
Proof. intros [_ [H | H]] Hn; [done | done]. Qed.

(** C10: for every string [s], the pieces of [split_on_non_ascii s]
    concatenate back to [s]; none of them is empty; each is a run of ASCII
    characters or one character above 127; every ASCII run is maximal (the
    character of [s] just before it and the one just after it, where they
    exist, are above 127); and when [s] starts with a character above 127
    the first piece is that character. *)
Theorem split_on_non_ascii_partition (s : str) :
  let bits := split_on_non_ascii s in
  concat bits = s
  ∧ ([] ∉ bits)
  ∧ Forall (fun x => ascii_only x ∨ ∃ c, x = [c] ∧ 127 < c) bits
  ∧ (∀ pre x post, bits = pre ++ x :: post → ascii_only x →
       (∀ c, last (concat pre) = Some c → 127 < c)
       ∧ (∀ c, head (concat post) = Some c → 127 < c))
  ∧ (∀ c s', s = c :: s' → 127 < c → head bits = Some [c]).
Proof.
  unfold split_on_non_ascii. simpl.
  pose proof (split_loop_chunks s [] (Forall_nil_2 _)) as Hchunks.
  pose proof (split_loop_separated s []) as Hsep.
  split; [apply (split_loop_concat s []) |].
  split.
  { intros Hin. rewrite Forall_forall in Hchunks.
    by destruct (Hchunks _ Hin). }
  split.
  { eapply Forall_impl; [exact Hchunks |]. by intros x [_ H]. }
  split.
  - intros pre x post E Hx. rewrite E in Hchunks, Hsep.
    apply Forall_app in Hchunks as [Hpre Hpost].
    apply Forall_cons in Hpost as [_ Hpost]. split.
    + intros c Hc.
      destruct (last_concat_chunks _ _ Hpre Hc) as (pre' & y & -> & Hy).
      rewrite <- app_assoc in Hsep. simpl in Hsep.
      apply separated_snoc_inv in Hsep.
      apply Forall_app in Hpre as [_ Hchunk].
      apply Forall_cons in Hchunk as [Hchunk _].
      destruct (chunk_non_ascii y Hchunk) as (c' & -> & Hc'); [tauto |].
      by injection Hy as <-.
    + intros c Hc. destruct post as [|y post]; [done |].
      apply separated_snoc_inv in Hsep.
      apply Forall_cons in Hpost as [Hchunk _].
      destruct (chunk_non_ascii y Hchunk) as (c' & -> & Hc'); [tauto |].
      by injection Hc as <-.
  - intros c s' -> Hc. rewrite split_loop_cons.
    case_bool_decide; [lia | done].
Qed.

Lemma split_on_non_ascii_partition_witness :
  127 < 233 ∧ head (split_on_non_ascii (233 :: str_lit "a%41")) = Some [233].
Proof.
  split; [reflexivity |].
  destruct (split_on_non_ascii_partition (233 :: str_lit "a%41"))
    as (_ & _ & _ & _ & Hhead).
  apply (Hhead 233 (str_lit "a%41")); reflexivity.
Defined.

(** ** The hex-escape table *)

Lemma lookup_list_to_map_assoc {V} (l : list (bytes * V)) k :
  (list_to_map l : gmap bytes V) !! k = assoc k l.
Proof.
  induction l as [|[k' v] l IH]; simpl; [apply lookup_empty |].
  rewrite lookup_insert. by destruct (decide (k' = k)).
Qed.

Lemma assoc_app {V} k (l1 l2 : list (bytes * V)) :
  assoc k (l1 ++ l2) = match assoc k l1 with Some v => Some v | None => assoc k l2 end.
Proof.
  induction l1 as [|[k' v] l1 IH]; simpl; [done |].
  by destruct (decide (k' = k)).
Qed.

Section comprehension.
Context {V : Type} (f : byte → byte → V).

Lemma assoc_row a' l2 k :
  assoc k (b ← l2; [([a'; b], f a' b)]) =
    match k with
    | [a; b] => if bool_decide (a = a' ∧ b ∈ l2) then Some (f a b) else None
    | _ => None
    end.
Proof.
  induction l2 as [|b' l2 IH].
  - simpl. destruct k as [|a [|b [|]]]; try done.
    all: case_bool_decide as H; [| done]; destruct H as [_ H]; by apply elem_of_nil in H.
  - rewrite bind_cons. simpl. destruct (decide ([a'; b'] = k)) as [<- | Hne].
    + rewrite bool_decide_true; [done | split; [done | left]].
    + rewrite IH. destruct k as [|a [|b [|]]]; try done.
      rewrite (bool_decide_ext (a = a' ∧ b ∈ b' :: l2) (a = a' ∧ b ∈ l2)); [done |].
      rewrite elem_of_cons. split; [| naive_solver].
      intros [-> [-> | ?]]; [done | done].
Qed.

Lemma assoc_pairs l1 l2 k :
  assoc k (a ← l1; b ← l2; [([a; b], f a b)]) =
    match k with
    | [a; b] => if bool_decide (a ∈ l1 ∧ b ∈ l2) then Some (f a b) else None
    | _ => None
    end.
Proof.
  induction l1 as [|a' l1 IH].
  - simpl. destruct k as [|a [|b [|]]]; try done.
    all: case_bool_decide as H; [| done]; destruct H as [H _]; by apply elem_of_nil in H.
  - rewrite bind_cons, assoc_app, assoc_row, IH. destruct k as [|a [|b [|]]]; try done.
    destruct (decide (a = a' ∧ b ∈ l2)) as [[-> Hb] | Hn].
    + rewrite !bool_decide_true; [done | split; [left | done] | done].
    + rewrite (bool_decide_false _ Hn).
      rewrite (bool_decide_ext (a ∈ a' :: l1 ∧ b ∈ l2) (a ∈ l1 ∧ b ∈ l2)); [done |].
      rewrite elem_of_cons. naive_solver.
Qed.
End comprehension.

Lemma hexdig_hex_digit a : a ∈ _hexdig ↔ is_Some (hex_digit a).
Proof.
  split.
  - intros H. unfold _hexdig in H. vm_compute in H.
    repeat (apply elem_of_cons in H as [-> | H]; [by eexists |]).
    by apply elem_of_nil in H.
  - intros [n Hn]. apply (bool_decide_unpack _).
    destruct a; vm_compute in Hn; try discriminate Hn; vm_compute; exact I.
Qed.

Lemma int16_pair a b x y :
  hex_digit a = Some x → hex_digit b = Some y → int16 [a; b] = 16 * x + y.
Proof. intros Ha Hb. unfold int16. simpl. rewrite Ha, Hb. simpl. lia. Qed.

Lemma hextobyte_lookup k : _hextobyte !! k = hex_pair k.
Proof.
  unfold _hextobyte.
  rewrite lookup_list_to_map_assoc.
  rewrite (assoc_pairs (fun a b => [byte_of_N (int16 [a; b])])).
  destruct k as [|a [|b [|]]]; try done. simpl.
  destruct (hex_digit a) as [x|] eqn:Ha.
  - destruct (hex_digit b) as [y|] eqn:Hb.
    + rewrite bool_decide_true.
      * by rewrite (int16_pair a b x y).
      * split; apply hexdig_hex_digit; by eexists.
    + rewrite bool_decide_false; [done |].
      intros [_ H]. apply hexdig_hex_digit in H as [? H]. congruence.
  - rewrite bool_decide_false; [done |].
    intros [H _]. apply hexdig_hex_digit in H as [? H]. congruence.
Qed.

#[global] Opaque _hextobyte.

(** ** The byte unescaper *)

Lemma bytes_split_cons sep s : ∃ first rest, bytes_split sep s = first :: rest.
Proof.
  induction s as [|c s (h & t & IH)]; simpl; [by eexists _, _ |].
  destruct (decide (c = sep)); [by eexists _, _ |].
  rewrite IH. by eexists _, _.
Qed.

Lemma bytes_join_split sep s : bytes_join sep (bytes_split sep s) = s.
Proof.
  induction s as [|c s IH]; [done |]. simpl.
  destruct (decide (c = sep)) as [-> | Hne].
  - destruct (bytes_split_cons sep s) as (h & t & E).
    rewrite E in *. unfold bytes_join in *. simpl. f_equal. exact IH.
  - destruct (bytes_split_cons sep s) as (h & t & E).
    rewrite E in *. unfold bytes_join in *. simpl. f_equal. exact IH.
Qed.

Lemma bytes_split_no_sep sep s : Forall (fun bit => sep ∉ bit) (bytes_split sep s).
Proof.
  induction s as [|c s IH]; simpl.
  - constructor; [apply not_elem_of_nil | constructor].
  - destruct (decide (c = sep)) as [-> | Hne].
    + constructor; [apply not_elem_of_nil | done].
    + destruct (bytes_split sep s) as [|h t].
      * constructor; [| constructor].
        intros H. apply list_elem_of_singleton in H. congruence.
      * apply Forall_cons in IH as [Hh Ht]. constructor; [| done].
        intros H. apply elem_of_cons in H as [H | H]; [congruence | done].
Qed.

Lemma bytes_split_no_sep_id sep s : sep ∉ s → bytes_split sep s = [s].
Proof.
  induction s as [|c s IH]; [done |]. intros H.
  apply not_elem_of_cons in H as [Hne Hs]. simpl.
  destruct (decide (c = sep)); [congruence |]. by rewrite (IH Hs).
Qed.

Lemma unescape_step (res : list bytes) item :
  concat (match _hextobyte !! take 2 item with
          | Some v => res ++ [v; drop 2 item]
          | None => res ++ [[pct]; item]
          end) = concat res ++ unescape item.
Proof.
  rewrite hextobyte_lookup.
  destruct item as [|a [|b rest]]; simpl.
  - by rewrite concat_app.
  - by rewrite concat_app.
  - destruct (hex_digit a), (hex_digit b); rewrite concat_app; simpl;
      by rewrite ?app_nil_r.
Qed.

Lemma unescape_loop items (res : list bytes) :
  concat (fold_left (fun res item =>
                       match _hextobyte !! take 2 item with
                       | Some v => res ++ [v; drop 2 item]
                       | None => res ++ [[pct]; item]
                       end) items res)
  = concat res ++ concat (unescape <$> items).
Proof.
  revert res. induction items as [|item items IH]; intros res; simpl.
  - by rewrite app_nil_r.
  - by rewrite IH, unescape_step, <- app_assoc.
Qed.

Lemma unquote_to_bytes_bytes (string : bytes) :
  unquote_to_bytes (VBytes string) = Ok (percent_decode (bytes_split pct string)).
Proof.
  unfold unquote_to_bytes, falsy. case_bool_decide as Hnil; [by subst |].
  simpl. pose proof (bytes_join_split pct string) as Hjoin.
  destruct (bytes_split_cons pct string) as (first & rest & E).
  rewrite E in *. case_bool_decide as Hlen.
  - destruct rest; [| done]. unfold bytes_join, percent_decode in *.
    simpl in *. by rewrite <- Hjoin.
  - unfold percent_decode. rewrite unescape_loop. simpl.
    by rewrite app_nil_r.
Qed.

Lemma unquote_to_bytes_str (s : str) :
  unquote_to_bytes (VStr s) =
    str_encode UTF8 Strict s ≫= fun b => unquote_to_bytes (VBytes b).
Proof.
  destruct s as [|c s]; [done |].
  unfold unquote_to_bytes at 1. unfold falsy.
  rewrite bool_decide_false; [| done].
  destruct (str_encode UTF8 Strict (c :: s)) as [b | e]; [| done].
  simpl. rewrite unquote_to_bytes_bytes.
  pose proof (bytes_join_split pct b) as Hjoin.
  destruct (bytes_split_cons pct b) as (first & rest & E).
  rewrite E in *. case_bool_decide as Hlen.
  - destruct rest; [| done]. unfold bytes_join, percent_decode in *.
    simpl in *. by rewrite <- Hjoin.
  - unfold percent_decode. rewrite unescape_loop. simpl.
    by rewrite app_nil_r.
Qed.

(** C4: [unquote_to_bytes] splits its input at the [%] octets (the pieces
    contain none and, joined by [%], give the input back), emits the first
    piece unchanged and, for each later piece, the octet denoted by its two
    leading hexadecimal digits (of either letter case) followed by the rest
    of the piece, or else a [%] followed by the whole piece; it returns
    normally on every byte sequence, and [b"100%gg"] is returned as it is. *)
Theorem unquote_to_bytes_segments (string : bytes) :
  (∃ first rest,
      bytes_split pct string = first :: rest
      ∧ first ++ concat (cons pct <$> rest) = string
      ∧ Forall (fun bit => pct ∉ bit) (first :: rest)
      ∧ unquote_to_bytes (VBytes string)
        = Ok (first ++ concat (unescape <$> rest)))
  ∧ unquote_to_bytes (VBytes (bytes_lit "100%gg")) = Ok (bytes_lit "100%gg").
Proof.
  split; [| by vm_compute].
  destruct (bytes_split_cons pct string) as (first & rest & E).
  exists first, rest. split; [done |].
  pose proof (bytes_join_split pct string) as Hjoin.
  pose proof (bytes_split_no_sep pct string) as Hsep.
  rewrite E in Hjoin, Hsep. split; [done |]. split; [done |].
  by rewrite unquote_to_bytes_bytes, E.
Qed.

(** ** The safe set *)

Lemma byte_of_to_N b : byte_of_N (Byte.to_N b) = b.
Proof. unfold byte_of_N. by rewrite Byte.of_to_N. Qed.

Lemma to_of_N_byte n : n < 256 → Byte.to_N (byte_of_N n) = n.
Proof.
  intros Hn. unfold byte_of_N. destruct (Byte.of_N n) as [b|] eqn:E.
  - by apply Byte.to_of_N.
  - apply Byte.of_N_None_iff in E. lia.
Qed.

Lemma str_encode_ascii_ignore s :
  str_encode ASCII Ignore s = Ok (byte_of_N <$> filter (fun c => c < 128) s).
Proof.
  induction s as [|c s IH]; [done |]. simpl. rewrite IH.
  destruct (decide (c < 128)) as [Hc | Hc].
  - rewrite filter_cons_True by done. apply N.ltb_lt in Hc. by rewrite Hc.
  - rewrite filter_cons_False by done. apply N.ltb_nlt in Hc. by rewrite Hc.
Qed.

Lemma normalize_safe_ascii safe k :
  normalize_safe safe = Ok k → Forall is_ascii_byte k.
Proof.
  destruct safe as [s | b | |]; simpl; [| | done | done].
  - rewrite str_encode_ascii_ignore. intros [= <-].
    apply Forall_fmap, Forall_forall. intros c Hc.
    apply list_elem_of_filter in Hc as [Hc _]. unfold is_ascii_byte. simpl.
    rewrite to_of_N_byte; lia.
  - intros [= <-]. apply Forall_forall. intros c Hc.
    by apply list_elem_of_filter in Hc as [Hc _].
Qed.

Lemma always_safe_ascii b : b ∈ _ALWAYS_SAFE → is_ascii_byte b.
Proof.
  unfold _ALWAYS_SAFE. rewrite elem_of_list_to_set. intros H.
  vm_compute in H.
  repeat (apply elem_of_cons in H as [-> | H]; [by vm_compute |]).
  by apply elem_of_nil in H.
Qed.

Lemma pct_not_always_safe : pct ∉ _ALWAYS_SAFE.
Proof.
  unfold _ALWAYS_SAFE. rewrite elem_of_list_to_set. intros H.
  vm_compute in H.
  repeat (apply elem_of_cons in H as [H | H]; [discriminate H |]).
  by apply elem_of_nil in H.
Qed.

#[global] Opaque _ALWAYS_SAFE.

Lemma rstrip_nil chars s : rstrip chars s = [] ↔ Forall (fun c => c ∈ chars) s.
Proof.
  induction s as [|c s IH]; simpl; [by split; [constructor |] |].
  destruct (rstrip chars s) as [|r rs].
  - case_bool_decide as Hc.
    + split; [| done]. intros _. constructor; [done | by apply IH].
    + split; [done |]. intros H. by apply Forall_cons in H as [H _].
  - split; [done |]. intros H. apply Forall_cons in H as [_ H].
    by apply IH in H.
Qed.

Lemma safe_chars_effective k b :
  b ∈ _ALWAYS_SAFE_BYTES ++ k ↔ b ∈ effective_safe k.
Proof.
  unfold _ALWAYS_SAFE_BYTES, effective_safe.
  by rewrite elem_of_app, elem_of_elements, elem_of_union, elem_of_list_to_set.
Qed.

Lemma effective_safe_ascii k b :
  Forall is_ascii_byte k → b ∈ effective_safe k → is_ascii_byte b.
Proof.
  intros Hk Hb. apply elem_of_union in Hb as [Hb | Hb].
  - by apply always_safe_ascii.
  - apply elem_of_list_to_set in Hb. rewrite Forall_forall in Hk. by apply Hk.
Qed.

Lemma utf8_decode_ascii err bs :
  Forall is_ascii_byte bs → utf8_decode err bs = Ok (chr <$> bs).
Proof.
  induction bs as [|b bs IH]; [done |]. intros H.
  apply Forall_cons in H as [Hb Hbs]. simpl.
  apply N.ltb_lt in Hb. rewrite Hb. by rewrite (IH Hbs).
Qed.

Lemma render_all_safe eff bs :
  Forall (fun b => b ∈ eff) bs → concat (render eff <$> bs) = chr <$> bs.
Proof.
  induction bs as [|b bs IH]; [done |]. intros H.
  apply Forall_cons in H as [Hb Hbs]. rewrite !fmap_cons. cbn [concat].
  rewrite (IH Hbs). unfold render. by rewrite bool_decide_true.
Qed.

(** ** The Quoter cache *)

Lemma Quoter_get_spec q b :
  memo_ok q →
  (Quoter.get q b).1 = render (Quoter.safe q) b
  ∧ Quoter.safe (Quoter.get q b).2 = Quoter.safe q
  ∧ memo_ok (Quoter.get q b).2
  ∧ Quoter.cache q ⊆ Quoter.cache (Quoter.get q b).2
  ∧ is_Some (Quoter.cache (Quoter.get q b).2 !! b).
Proof.
  intros Hq. unfold Quoter.get.
  destruct (Quoter.cache q !! b) as [res|] eqn:E; simpl.
  - split; [by apply Hq |]. split; [done |]. split; [done |].
    split; [done | by eexists].
  - split; [done |]. split; [done |]. split.
    + intros b' res'. simpl. rewrite lookup_insert.
      destruct (decide (b = b')) as [<- | _]; [by intros [= <-] | apply Hq].
    + split; [by apply insert_subseteq |].
      rewrite lookup_insert_eq. by eexists.
Qed.

Lemma Quoter_get_cached q b :
  is_Some (Quoter.cache q !! b) → (Quoter.get q b).2 = q.
Proof. intros [res E]. unfold Quoter.get. by rewrite E. Qed.

Lemma heap_grows_refl h : heap_grows h h.
Proof. intros a q H. by exists q. Qed.

Lemma heap_grows_trans h1 h2 h3 :
  heap_grows h1 h2 → heap_grows h2 h3 → heap_grows h1 h3.
Proof.
  intros H12 H23 a q H. destruct (H12 a q H) as (q2 & H2 & Hs2 & Hc2).
  destruct (H23 a q2 H2) as (q3 & H3 & Hs3 & Hc3).
  exists q3. split; [done |]. split; [congruence | by etrans].
Qed.

Lemma heap_grows_insert h a q q' :
  h !! a = Some q → Quoter.safe q' = Quoter.safe q →
  Quoter.cache q ⊆ Quoter.cache q' → heap_grows h (<[a := q']> h).
Proof.
  intros Ha Hs Hc a0 q0 H0. destruct (decide (a = a0)) as [<- | Hne].
  - exists q'. rewrite list_lookup_insert_eq by (by eapply lookup_lt_Some).
    split; [done |]. by replace q0 with q by congruence.
  - exists q0. by rewrite list_lookup_insert_ne.
Qed.

Lemma heap_grows_app h q : heap_grows h (h ++ [q]).
Proof. intros a q0 H0. exists q0. by rewrite (lookup_app_l_Some _ _ _ _ H0). Qed.

Lemma quoter_get_spec a q b st :
  Forall memo_ok (heap st) → heap st !! a = Some q →
  ∃ q', quoter_get a b st
        = (render (Quoter.safe q) b, State (<[a := q']> (heap st)) (_safe_quoters st))
    ∧ Quoter.safe q' = Quoter.safe q ∧ memo_ok q'
    ∧ Quoter.cache q ⊆ Quoter.cache q' ∧ is_Some (Quoter.cache q' !! b).
Proof.
  intros Hh Ha. unfold quoter_get. rewrite Ha.
  assert (memo_ok q) as Hq.
  { rewrite Forall_forall in Hh. apply Hh. by eapply list_elem_of_lookup_2. }
  destruct (Quoter_get_spec q b Hq) as (H1 & H2 & H3 & H4 & H5).
  destruct (Quoter.get q b) as [res q'] eqn:E. simpl in *. exists q'. by subst.
Qed.

Lemma quote_loop_spec a bs :
  ∀ res st q,
    Forall memo_ok (heap st) → heap st !! a = Some q →
    ∃ h' q',
      quote_loop a bs res st
      = (res ++ concat (render (Quoter.safe q) <$> bs), State h' (_safe_quoters st))
      ∧ Forall memo_ok h' ∧ length h' = length (heap st)
      ∧ heap_grows (heap st) h'
      ∧ h' !! a = Some q'
      ∧ (∀ b, b ∈ bs → is_Some (Quoter.cache q' !! b)).
Proof.
  induction bs as [|b bs IH]; intros res st q Hh Ha.
  - exists (heap st), q. simpl. rewrite app_nil_r. destruct st; simpl in *.
    split; [done |]. split; [done |]. split; [done |].
    split; [apply heap_grows_refl |]. split; [done |].
    intros b Hb. by apply elem_of_nil in Hb.
  - cbn [quote_loop].
    destruct (quoter_get_spec a q b st Hh Ha) as (q1 & E & Hs & Hm & Hc & Hb).
    rewrite E.
    assert (a < length (heap st))%nat as Hlt by (by eapply lookup_lt_Some).
    destruct (IH (res ++ render (Quoter.safe q) b)
                (State (<[a:=q1]> (heap st)) (_safe_quoters st)) q1)
      as (h' & q' & E' & Hm' & Hlen & Hgrow & Ha' & Hmemo).
    { simpl. by apply Forall_insert. }
    { simpl. by apply list_lookup_insert_eq. }
    cbn [heap _safe_quoters] in *. exists h', q'.
    rewrite E', Hs, fmap_cons. cbn [concat].
    rewrite <- app_assoc. split; [done |]. split; [done |].
    split; [by rewrite Hlen, length_insert |].
    split; [eapply heap_grows_trans; [by eapply heap_grows_insert | done] |].
    split; [done |].
    intros b0 Hb0. apply elem_of_cons in Hb0 as [-> | Hb0]; [| by apply Hmemo].
    destruct (Hgrow a q1) as (q'' & Hq'' & _ & Hsub).
    { by apply list_lookup_insert_eq. }
    replace q'' with q' in Hsub by congruence.
    by eapply lookup_weaken_is_Some.
Qed.

Lemma quote_loop_cached a bs :
  ∀ res st q,
    heap st !! a = Some q → (∀ b, b ∈ bs → is_Some (Quoter.cache q !! b)) →
    (quote_loop a bs res st).2 = st.
Proof.
  induction bs as [|b bs IH]; intros res st q Ha Hmemo; [done |].
  cbn [quote_loop]. unfold quoter_get. rewrite Ha.
  pose proof (Quoter_get_cached q b (Hmemo b (list_elem_of_here _ _))) as Hq.
  destruct (Quoter.get q b) as [r q']. simpl in Hq. subst q'.
  rewrite (list_insert_id _ _ _ Ha).
  replace (State (heap st) (_safe_quoters st)) with st by (by destruct st).
  apply (IH _ _ q Ha). intros b0 Hb0. apply Hmemo. by right.
Qed.

Lemma quote_from_bytes_unfold bs safe k st :
  normalize_safe safe = Ok k →
  quote_from_bytes (VBytes bs) safe st =
    if decide (all_safe k bs) then (Ok (chr <$> bs), st)
    else
      let '(quoter, st) := get_quoter k st in
      let '(res, st) := quote_loop quoter bs [] st in
      (Ok res, st).
Proof.
  intros Hk. unfold quote_from_bytes.
  change (match safe with
          | VStr safe0 => str_encode ASCII Ignore safe0
          | VBytes safe0 => Ok (filter (fun c => Byte.to_N c < 128) safe0)
          | _ => Raise TypeError
          end) with (normalize_safe safe).
  rewrite Hk. case_bool_decide as Hnil.
  { subst bs. rewrite decide_True; [done | constructor]. }
  destruct (decide (all_safe k bs)) as [Hall | Hall].
  - rewrite bool_decide_true.
    + simpl. rewrite utf8_decode_ascii; [done |].
      eapply Forall_impl; [exact Hall |].
      intros b. apply effective_safe_ascii. by eapply normalize_safe_ascii.
    + apply rstrip_nil. eapply Forall_impl; [exact Hall |].
      intros b. apply safe_chars_effective.
  - rewrite bool_decide_false.
    + unfold get_quoter, new_Quoter. by destruct (_safe_quoters st !! k).
    + intros H. apply Hall. apply rstrip_nil in H.
      eapply Forall_impl; [exact H |]. intros b. apply safe_chars_effective.
Qed.

Lemma get_quoter_spec k st :
  cache_ok st →
  ∃ a st1 q,
    get_quoter k st = (a, st1)
    ∧ cache_ok st1
    ∧ _safe_quoters st1 !! k = Some a
    ∧ heap st1 !! a = Some q
    ∧ Quoter.safe q = effective_safe k
    ∧ heap_grows (heap st) (heap st1)
    ∧ _safe_quoters st ⊆ _safe_quoters st1
    ∧ dom (_safe_quoters st1) = {[k]} ∪ dom (_safe_quoters st)
    ∧ (is_Some (_safe_quoters st !! k) → st1 = st).
Proof.
  intros [Hmemo Hkeys]. unfold get_quoter.
  destruct (_safe_quoters st !! k) as [a|] eqn:E.
  - destruct (Hkeys k a E) as (q & Ha & Hs).
    exists a, st, q. split; [done |]. split; [done |]. split; [done |].
    split; [done |]. split; [done |]. split; [apply heap_grows_refl |].
    split; [done |]. split; [| done].
    apply (elem_of_dom_2 (D := gset bytes)) in E. set_solver.
  - eexists (length (heap st)), _, (Quoter.__init__ k).
    split; [reflexivity |]. cbn [heap _safe_quoters]. split; [split |].
    + apply Forall_app. split; [done |]. constructor; [| constructor].
      intros b res. unfold Quoter.__init__. simpl. by rewrite lookup_empty.
    + intros k' a'. cbn [heap _safe_quoters]. rewrite lookup_insert.
      destruct (decide (k = k')) as [<- | Hne].
      * intros [= <-]. exists (Quoter.__init__ k).
        by rewrite list_lookup_middle.
      * intros Hk'. destruct (Hkeys k' a' Hk') as (q & Ha & Hs).
        exists q. by rewrite (lookup_app_l_Some _ _ _ _ Ha).
    + split; [apply lookup_insert_eq |].
      split; [by apply list_lookup_middle |]. split; [done |].
      split; [apply heap_grows_app |].
      split; [by apply insert_subseteq |].
      split; [apply dom_insert_L |]. by intros [? ?].
Qed.

(** What one call of [quote_from_bytes] returns and does to the store. *)
Lemma quote_from_bytes_spec st bs safe k :
  cache_ok st → normalize_safe safe = Ok k →
  ∃ st',
    quote_from_bytes (VBytes bs) safe st
    = (Ok (concat (render (effective_safe k) <$> bs)), st')
    ∧ cache_ok st'
    ∧ heap_grows (heap st) (heap st')
    ∧ _safe_quoters st ⊆ _safe_quoters st'
    ∧ dom (_safe_quoters st')
      = (if decide (all_safe k bs) then ∅ else {[k]}) ∪ dom (_safe_quoters st)
    ∧ (is_Some (_safe_quoters st !! k) ∨ all_safe k bs →
       _safe_quoters st' = _safe_quoters st ∧ length (heap st') = length (heap st))
    ∧ (¬ all_safe k bs →
       ∃ a q, _safe_quoters st' !! k = Some a ∧ heap st' !! a = Some q
              ∧ ∀ b, b ∈ bs → is_Some (Quoter.cache q !! b)).
Proof.
  intros Hok Hk. rewrite (quote_from_bytes_unfold _ _ _ _ Hk).
  destruct (decide (all_safe k bs)) as [Hall | Hall].
  - exists st. rewrite (render_all_safe _ _ Hall).
    split; [done |]. split; [done |]. split; [apply heap_grows_refl |].
    split; [done |]. split; [set_solver |]. split; [done | done].
  - destruct (get_quoter_spec k st Hok)
      as (a & st1 & q & E1 & [Hmemo1 Hkeys1] & Hk1 & Ha1 & Hs1 & Hg1 & Hsub1 & Hdom1 & Hsame).
    rewrite E1.
    destruct (quote_loop_spec a bs [] st1 q Hmemo1 Ha1)
      as (h' & q' & E2 & Hmemo2 & Hlen2 & Hg2 & Ha2 & Hcached).
    rewrite E2, Hs1. simpl. exists (State h' (_safe_quoters st1)).
    split; [done |]. cbn [heap _safe_quoters]. split; [split; [done |] |].
    + intros k' a' Hk'. destruct (Hkeys1 k' a' Hk') as (q0 & Ha0 & Hs0).
      destruct (Hg2 a' q0 Ha0) as (q0' & Ha0' & Hs0' & _).
      exists q0'. split; [done | congruence].
    + split; [by eapply heap_grows_trans |]. split; [done |].
      split; [done |]. split.
      * intros [Hsome | Habs]; [| done]. rewrite (Hsame Hsome) in *. done.
      * intros _. by exists a, q'.
Qed.

(** ** Escapes *)

Lemma format_02X_bytes b : format_02X b = chr <$> [pct; hex_hi b; hex_lo b].
Proof. by destruct b. Qed.

Lemma hex_hi_lo_value b :
  hex_digit (hex_hi b) = Some (Byte.to_N b / 16)
  ∧ hex_digit (hex_lo b) = Some (Byte.to_N b mod 16)
  ∧ byte_of_N (16 * (Byte.to_N b / 16) + Byte.to_N b mod 16) = b.
Proof. by destruct b. Qed.

Lemma hex_hi_lo_upper b :
  hex_hi b ∈ upper_hexdig ∧ hex_lo b ∈ upper_hexdig.
Proof.
  split; apply (bool_decide_unpack _); destruct b; vm_compute; exact I.
Qed.

Lemma upper_hexdig_plain h : h ∈ upper_hexdig → h ≠ pct ∧ is_ascii_byte h.
Proof.
  intros H. unfold upper_hexdig in H. vm_compute in H.
  repeat (apply elem_of_cons in H as [-> | H]; [by split |]).
  by apply elem_of_nil in H.
Qed.

Lemma render_ascii k b :
  Forall is_ascii_byte k → ascii_only (render (effective_safe k) b).
Proof.
  intros Hk. unfold render. case_bool_decide as Hb.
  - constructor; [| constructor].
    apply (effective_safe_ascii _ _ Hk) in Hb. unfold is_ascii_byte, chr in *. lia.
  - rewrite format_02X_bytes.
    destruct (hex_hi_lo_upper b) as [Hh Hl].
    apply upper_hexdig_plain in Hh as [_ Hh], Hl as [_ Hl].
    unfold is_ascii_byte in *. repeat constructor; unfold chr; simpl; lia.
Qed.

Lemma quoted_ascii k bs :
  Forall is_ascii_byte k → ascii_only (concat (render (effective_safe k) <$> bs)).
Proof.
  intros Hk. induction bs as [|b bs IH]; [constructor |].
  rewrite fmap_cons. cbn [concat]. apply Forall_app. split; [| done].
  by apply render_ascii.
Qed.

(** ** Calls and reachable stores *)

Lemma run_call_bytes c bs safe st :
  call_bytes c = Some (bs, safe) →
  run_call c st = quote_from_bytes (VBytes bs) safe st.
Proof.
  destruct c as [string safe' encoding errors | bs' safe'];
    unfold call_bytes, run_call, quote.
  - destruct string as [s | b | |]; [| | done | done].
    + case_bool_decide; [done |].
      destruct (str_encode _ _ s); [| done]. by intros [= -> ->].
    + destruct encoding; [done |]. destruct errors; [done |]. by intros [= -> ->].
  - destruct bs'; try done. by intros [= -> ->].
Qed.

Lemma run_call_none c st : call_bytes c = None → (run_call c st).2 = st.
Proof.
  destruct c as [string safe' encoding errors | bs' safe'];
    unfold call_bytes, run_call, quote.
  - destruct string as [s | b | |].
    + case_bool_decide; [done |]. by destruct (str_encode _ _ s).
    + by destruct encoding, errors.
    + by destruct encoding, errors.
    + by destruct encoding, errors.
  - by destruct bs'.
Qed.

Lemma quote_from_bytes_bad_safe bs safe e st :
  normalize_safe safe = Raise e →
  (quote_from_bytes (VBytes bs) safe st).2 = st.
Proof.
  intros Hk. unfold quote_from_bytes.
  change (match safe with
          | VStr safe0 => str_encode ASCII Ignore safe0
          | VBytes safe0 => Ok (filter (fun c => Byte.to_N c < 128) safe0)
          | _ => Raise TypeError
          end) with (normalize_safe safe).
  rewrite Hk. by case_bool_decide.
Qed.

Lemma run_call_spec c st :
  cache_ok st →
  cache_ok (run_call c st).2
  ∧ heap_grows (heap st) (heap (run_call c st).2)
  ∧ _safe_quoters st ⊆ _safe_quoters (run_call c st).2
  ∧ dom (_safe_quoters (run_call c st).2)
    = list_to_set (option_list (cache_key c)) ∪ dom (_safe_quoters st).
Proof.
  intros Hok. unfold cache_key.
  destruct (call_bytes c) as [[bs safe]|] eqn:Ec.
  - rewrite (run_call_bytes _ _ _ _ Ec).
    destruct (normalize_safe safe) as [k | e] eqn:Ek.
    + destruct (quote_from_bytes_spec st bs safe k Hok Ek)
        as (st' & E & Hok' & Hg & Hsub & Hdom & _).
      rewrite E. simpl. split; [done |]. split; [done |]. split; [done |].
      rewrite Hdom. destruct (decide (all_safe k bs)); simpl; set_solver.
    + rewrite (quote_from_bytes_bad_safe _ _ _ _ Ek).
      split; [done |]. split; [apply heap_grows_refl |]. split; [done |].
      simpl. set_solver.
  - rewrite (run_call_none _ _ Ec).
    split; [done |]. split; [apply heap_grows_refl |]. split; [done |].
    simpl. set_solver.
Qed.

Lemma initial_ok : cache_ok initial.
Proof. split; [constructor |]. intros k a. simpl. by rewrite lookup_empty. Qed.

Lemma clear_cache_ok st : cache_ok st → cache_ok (clear_cache st).
Proof.
  intros [Hmemo _]. split; [done |]. intros k a. simpl. by rewrite lookup_empty.
Qed.

Lemma reachable_ok st : reachable st → cache_ok st.
Proof.
  induction 1 as [| c st _ IH | st _ IH].
  - apply initial_ok.
  - by apply run_call_spec.
  - by apply clear_cache_ok.
Qed.

(** ** What [quote] and [quote_from_bytes] return *)

Lemma quote_from_bytes_result st bs safe k :
  cache_ok st → normalize_safe safe = Ok k →
  (quote_from_bytes (VBytes bs) safe st).1
  = Ok (concat (render (effective_safe k) <$> bs)).
Proof.
  intros Hok Hk.
  destruct (quote_from_bytes_spec st bs safe k Hok Hk) as (st' & E & _).
  by rewrite E.
Qed.

Lemma int16_hex_hi_lo b : int16 [hex_hi b; hex_lo b] = Byte.to_N b.
Proof.
  destruct (hex_hi_lo_value b) as (Hh & Hl & _).
  rewrite (int16_pair _ _ _ _ Hh Hl).
  pose proof (N.div_mod (Byte.to_N b) 16). lia.
Qed.

(** C3: on a reachable store, [quote_from_bytes] and [quote] (on bytes, or
    on text through its encoding) return the concatenation of the
    renderings of the input octets, in order; an octet in the Effective Safe
    Set is rendered as its single literal character, and any other octet as
    exactly three characters: ['%'] and two digits among
    [0123456789ABCDEF] that denote its value in base 16. *)
Theorem quote_renders_each_byte st bs safe k :
  reachable st → normalize_safe safe = Ok k →
  (quote_from_bytes (VBytes bs) safe st).1
  = Ok (concat (render (effective_safe k) <$> bs))
  ∧ (quote (VBytes bs) safe None None st).1
    = Ok (concat (render (effective_safe k) <$> bs))
  ∧ (∀ s encoding errors bs',
        str_encode (default UTF8 encoding) (default Strict errors) s = Ok bs' →
        (quote (VStr s) safe encoding errors st).1
        = Ok (concat (render (effective_safe k) <$> bs')))
  ∧ (∀ b,
        (b ∈ effective_safe k → render (effective_safe k) b = [chr b])
        ∧ (b ∉ effective_safe k →
           ∃ h l, render (effective_safe k) b = [chr pct; chr h; chr l]
                  ∧ h ∈ upper_hexdig ∧ l ∈ upper_hexdig
                  ∧ int16 [h; l] = Byte.to_N b)).
Proof.
  intros Hst Hk. apply reachable_ok in Hst.
  split; [by apply quote_from_bytes_result |].
  split; [by apply quote_from_bytes_result |]. split.
  - intros s encoding errors bs' Henc. unfold quote.
    case_bool_decide as Hnil.
    + subst s. simpl in Henc. by injection Henc as <-.
    + rewrite Henc. by apply quote_from_bytes_result.
  - intros b. unfold render. split; intros Hb.
    + by rewrite bool_decide_true.
    + rewrite bool_decide_false by done. exists (hex_hi b), (hex_lo b).
      split; [apply format_02X_bytes |].
      destruct (hex_hi_lo_upper b) as [Hh Hl].
      split; [done |]. split; [done |]. apply int16_hex_hi_lo.
Qed.

Lemma quote_renders_each_byte_witness :
  reachable initial ∧ normalize_safe slash = Ok (bytes_lit "/")
  ∧ (quote_from_bytes (VBytes (bytes_lit "a b/c")) slash initial).1
    = Ok (concat (render (effective_safe (bytes_lit "/")) <$> bytes_lit "a b/c")).
Proof.
  split; [constructor |]. split; [reflexivity |].
  apply (quote_renders_each_byte initial (bytes_lit "a b/c") slash (bytes_lit "/"));
    [constructor | reflexivity].
Defined.

(** C5: on a reachable store, whatever [quote_from_bytes] returns for a
    byte input consists of characters in 0..127 only, and it does return
    for every text or bytes [safe] argument; a text [safe] is reduced to
    its characters below 128 and a bytes [safe] to its octets below 128. *)
Theorem quote_from_bytes_ascii st bs safe :
  reachable st →
  (∀ r, (quote_from_bytes (VBytes bs) safe st).1 = Ok r → ascii_only r)
  ∧ ((∃ s, safe = VStr s) ∨ (∃ b, safe = VBytes b) →
     ∃ r, (quote_from_bytes (VBytes bs) safe st).1 = Ok r ∧ ascii_only r)
  ∧ (∀ s, normalize_safe (VStr s)
          = Ok (byte_of_N <$> filter (fun c => c < 128) s))
  ∧ (∀ b, normalize_safe (VBytes b)
          = Ok (filter (fun c => Byte.to_N c < 128) b)).
Proof.
  intros Hst. apply reachable_ok in Hst.
  assert (∀ k, normalize_safe safe = Ok k →
               ∃ r, (quote_from_bytes (VBytes bs) safe st).1 = Ok r ∧ ascii_only r)
    as Hsome.
  { intros k Hk. eexists. split; [by apply quote_from_bytes_result |].
    apply quoted_ascii. by eapply normalize_safe_ascii. }
  split.
  - intros r Hr. destruct (normalize_safe safe) as [k | e] eqn:Hk.
    + destruct (Hsome k eq_refl) as (r' & Hr' & Hascii). congruence.
    + revert Hr. unfold quote_from_bytes.
      change (match safe with
              | VStr safe0 => str_encode ASCII Ignore safe0
              | VBytes safe0 => Ok (filter (fun c => Byte.to_N c < 128) safe0)
              | _ => Raise TypeError
              end) with (normalize_safe safe).
      rewrite Hk. case_bool_decide; [| done]. intros [= <-]. constructor.
  - split; [| split; [apply str_encode_ascii_ignore | done]].
    intros [[s ->] | [b ->]].
    + apply (Hsome _ (str_encode_ascii_ignore s)).
    + by eapply Hsome.
Qed.

Lemma quote_from_bytes_ascii_witness :
  reachable initial
  ∧ ∃ r, (quote_from_bytes (VBytes (bytes_lit "a b")) (VStr [233; 47]) initial).1 = Ok r
         ∧ ascii_only r.
Proof.
  split; [constructor |].
  apply (quote_from_bytes_ascii initial (bytes_lit "a b") (VStr [233; 47]));
    [constructor | left; by eexists].
Defined.

(** ** Round trip *)

Lemma render_render_bytes eff b : render eff b = chr <$> render_bytes eff b.
Proof.
  unfold render, render_bytes. case_bool_decide; [done |]. apply format_02X_bytes.
Qed.

Lemma quoted_render_bytes eff bs :
  concat (render eff <$> bs) = chr <$> concat (render_bytes eff <$> bs).
Proof.
  induction bs as [|b bs IH]; [done |].
  rewrite !fmap_cons. cbn [concat]. by rewrite fmap_app, IH, render_render_bytes.
Qed.

Lemma str_encode_utf8_ascii err bs :
  Forall is_ascii_byte bs → str_encode UTF8 err (chr <$> bs) = Ok bs.
Proof.
  induction bs as [|b bs IH]; [done |]. intros H.
  apply Forall_cons in H as [Hb Hbs]. rewrite fmap_cons. cbn [str_encode].
  unfold encode_char, utf8_encode_char, chr at 1 2.
  apply N.ltb_lt in Hb. rewrite Hb, byte_of_to_N, (IH Hbs). done.
Qed.

Lemma render_bytes_ascii k bs :
  Forall is_ascii_byte k →
  Forall is_ascii_byte (concat (render_bytes (effective_safe k) <$> bs)).
Proof.
  intros Hk. induction bs as [|b bs IH]; [constructor |].
  rewrite fmap_cons. cbn [concat]. apply Forall_app. split; [| done].
  unfold render_bytes. case_bool_decide as Hb.
  - constructor; [exact (effective_safe_ascii _ _ Hk Hb) | constructor].
  - destruct (hex_hi_lo_upper b) as [Hh Hl].
    apply upper_hexdig_plain in Hh as [_ Hh], Hl as [_ Hl].
    by repeat constructor.
Qed.

Lemma percent_decode_literal c s :
  c ≠ pct →
  percent_decode (bytes_split pct (c :: s)) = c :: percent_decode (bytes_split pct s).
Proof.
  intros Hc. cbn [bytes_split]. rewrite decide_False by done.
  by destruct (bytes_split_cons pct s) as (h & t & ->).
Qed.

Lemma percent_decode_escape b s :
  percent_decode (bytes_split pct (pct :: hex_hi b :: hex_lo b :: s))
  = b :: percent_decode (bytes_split pct s).
Proof.
  destruct (hex_hi_lo_upper b) as [Hh Hl].
  apply upper_hexdig_plain in Hh as [Hh _], Hl as [Hl _].
  destruct (hex_hi_lo_value b) as (Eh & El & Eb).
  cbn [bytes_split]. rewrite decide_True by done.
  rewrite !decide_False by done.
  destruct (bytes_split_cons pct s) as (h & t & ->).
  unfold percent_decode. simpl. by rewrite Eh, El, Eb.
Qed.

Lemma percent_decode_rendered eff bs :
  pct ∉ eff →
  percent_decode (bytes_split pct (concat (render_bytes eff <$> bs))) = bs.
Proof.
  intros Hpct. induction bs as [|b bs IH]; [done |].
  rewrite fmap_cons. cbn [concat]. unfold render_bytes at 1.
  case_bool_decide as Hb.
  - cbn [app]. rewrite percent_decode_literal; [by rewrite IH |].
    intros ->. done.
  - cbn [app]. by rewrite percent_decode_escape, IH.
Qed.

(** C2: on a reachable store, for every byte sequence [b] and every safe
    set without the ['%'] octet, [quote_from_bytes] returns a text which
    [unquote_to_bytes] takes back to [b]. *)
Theorem unquote_quote_roundtrip st b safe k :
  reachable st → normalize_safe safe = Ok k → pct ∉ k →
  ∃ r, (quote_from_bytes (VBytes b) safe st).1 = Ok r
       ∧ unquote_to_bytes (VStr r) = Ok b.
Proof.
  intros Hst Hk Hpct. apply reachable_ok in Hst.
  eexists. split; [by apply quote_from_bytes_result |].
  pose proof (normalize_safe_ascii _ _ Hk) as Hascii.
  rewrite unquote_to_bytes_str, quoted_render_bytes.
  rewrite str_encode_utf8_ascii by (by apply render_bytes_ascii).
  simpl. rewrite unquote_to_bytes_bytes. f_equal.
  apply percent_decode_rendered. intros H.
  apply elem_of_union in H as [H | H].
  - by apply pct_not_always_safe.
  - by apply elem_of_list_to_set in H.
Qed.

Lemma unquote_quote_roundtrip_witness :
  reachable initial ∧ normalize_safe slash = Ok (bytes_lit "/")
  ∧ (pct ∉ bytes_lit "/")
  ∧ ∃ r, (quote_from_bytes (VBytes (bytes_lit "a%b /")) slash initial).1 = Ok r
         ∧ unquote_to_bytes (VStr r) = Ok (bytes_lit "a%b /").
Proof.
  assert (pct ∉ bytes_lit "/") as Hpct.
  { intros H. apply list_elem_of_singleton in H. discriminate H. }
  split; [constructor |]. split; [reflexivity |]. split; [exact Hpct |].
  apply (unquote_quote_roundtrip initial (bytes_lit "a%b /") slash (bytes_lit "/"));
    [constructor | reflexivity | exact Hpct].
Defined.

(** ** Cache consistency *)

Lemma quote_from_bytes_warm st bs safe k :
  normalize_safe safe = Ok k →
  (¬ all_safe k bs →
   ∃ a q, _safe_quoters st !! k = Some a ∧ heap st !! a = Some q
          ∧ ∀ b, b ∈ bs → is_Some (Quoter.cache q !! b)) →
  (quote_from_bytes (VBytes bs) safe st).2 = st.
Proof.
  intros Hk Hwarm. rewrite (quote_from_bytes_unfold _ _ _ _ Hk).
  destruct (decide (all_safe k bs)) as [Hall | Hall]; [done |].
  destruct (Hwarm Hall) as (a & q & Ea & Eq & Hcached).
  unfold get_quoter. rewrite Ea.
  pose proof (quote_loop_cached a bs [] st q Eq Hcached) as Hloop.
  by destruct (quote_loop a bs [] st).
Qed.

(** C6: on a reachable store, two calls of [quote_from_bytes] on the same
    bytes whose [safe] arguments normalise to the same key return the same
    text, and the second call leaves the store as it is: no [Quoter] is
    allocated and [_safe_quoters] is unchanged. Once the key is stored,
    a later call under it on any bytes allocates no [Quoter] either. Every
    key [k'] of [_safe_quoters] refers to a [Quoter] whose safe set is the
    union of the Always-Safe set and [k']. *)
Theorem cache_consistency st bs bs' safe1 safe2 k :
  reachable st → normalize_safe safe1 = Ok k → normalize_safe safe2 = Ok k →
  let c1 := quote_from_bytes (VBytes bs) safe1 st in
  let c2 := quote_from_bytes (VBytes bs) safe2 c1.2 in
  let c3 := quote_from_bytes (VBytes bs') safe2 c1.2 in
  c1.1 = c2.1
  ∧ c2.2 = c1.2
  ∧ (¬ all_safe k bs →
     is_Some (_safe_quoters c1.2 !! k)
     ∧ _safe_quoters c3.2 = _safe_quoters c1.2
     ∧ length (heap c3.2) = length (heap c1.2))
  ∧ (∀ k' a, _safe_quoters st !! k' = Some a →
       ∃ q, heap st !! a = Some q
            ∧ Quoter.safe q = _ALWAYS_SAFE ∪ list_to_set k').
Proof.
  intros Hst Hk1 Hk2. apply reachable_ok in Hst. cbv zeta.
  destruct (quote_from_bytes_spec st bs safe1 k Hst Hk1)
    as (st1 & E1 & Hok1 & _ & _ & _ & _ & Hwarm).
  rewrite E1. cbn [fst snd].
  split; [by rewrite (quote_from_bytes_result st1 bs safe2 k Hok1 Hk2) |].
  split; [by apply (quote_from_bytes_warm st1 bs safe2 k Hk2) |].
  split; [| apply Hst].
  intros Hall. destruct (Hwarm Hall) as (a & q & Ea & _).
  split; [by eexists |].
  destruct (quote_from_bytes_spec st1 bs' safe2 k Hok1 Hk2)
    as (st3 & E3 & _ & _ & _ & _ & Hsame & _).
  rewrite E3. cbn [snd]. apply Hsame. left. by eexists.
Qed.

Lemma cache_consistency_witness :
  reachable initial
  ∧ normalize_safe (VStr [47; 233]) = Ok (bytes_lit "/")
  ∧ normalize_safe (VBytes (bytes_lit "/")) = Ok (bytes_lit "/")
  ∧ (quote_from_bytes (VBytes (bytes_lit "a b")) (VStr [47; 233]) initial).1
    = (quote_from_bytes (VBytes (bytes_lit "a b")) (VBytes (bytes_lit "/"))
         (quote_from_bytes (VBytes (bytes_lit "a b")) (VStr [47; 233]) initial).2).1.
Proof.
  split; [constructor |]. split; [reflexivity |]. split; [reflexivity |].
  apply (cache_consistency initial (bytes_lit "a b") (bytes_lit "c d")
           (VStr [47; 233]) (VBytes (bytes_lit "/")) (bytes_lit "/"));
    [constructor | reflexivity | reflexivity].
Defined.

(** ** Growth of the cache *)

Lemma run_calls_spec cs :
  ∀ st, cache_ok st →
    cache_ok (run_calls cs st)
    ∧ _safe_quoters st ⊆ _safe_quoters (run_calls cs st)
    ∧ dom (_safe_quoters (run_calls cs st))
      = list_to_set (omap cache_key cs) ∪ dom (_safe_quoters st).
Proof.
  induction cs as [|c cs IH]; intros st Hok.
  - simpl. split; [done |]. split; [done |]. set_solver.
  - destruct (run_call_spec c st Hok) as (Hok1 & _ & Hsub1 & Hdom1).
    destruct (IH _ Hok1) as (Hok2 & Hsub2 & Hdom2).
    change (run_calls (c :: cs) st) with (run_calls cs (run_call c st).2).
    split; [done |].
    split; [by etrans |]. rewrite Hdom2, Hdom1. cbn [omap list_omap].
    generalize (dom (_safe_quoters st)) (omap cache_key cs). intros D l.
    destruct (cache_key c) as [k|]; cbn [option_list].
    + rewrite list_to_set_cons. set_solver.
    + set_solver.
Qed.

Lemma call_bytes_safe c bs safe : call_bytes c = Some (bs, safe) → safe = call_safe c.
Proof.
  destruct c as [string safe' encoding errors | bs' safe']; unfold call_bytes.
  - destruct string as [s | b | |]; [| | done | done].
    + case_bool_decide; [done |]. destruct (str_encode _ _ s); [| done].
      by intros [= _ <-].
    + destruct encoding; [done |]. destruct errors; [done |]. by intros [= _ <-].
  - destruct bs'; try done. by intros [= _ <-].
Qed.

Lemma cache_key_normalized c k : cache_key c = Some k → normalized c = Some k.
Proof.
  unfold cache_key, normalized.
  destruct (call_bytes c) as [[bs safe]|] eqn:E; [| done].
  apply call_bytes_safe in E as <-.
  destruct (normalize_safe safe); [| done]. by case_decide.
Qed.

Lemma cache_keys_safe_sets cs :
  (length (remove_dups (omap cache_key cs)) ≤ length (safe_sets cs))%nat.
Proof.
  apply submseteq_length, NoDup_submseteq; [apply NoDup_remove_dups |].
  intros k. unfold safe_sets. rewrite !elem_of_remove_dups, !list_elem_of_omap.
  intros (c & Hc & Hk). exists c. split; [done |]. by apply cache_key_normalized.
Qed.

Lemma size_from_initial cs :
  size (_safe_quoters (run_calls cs initial))
  = length (remove_dups (omap cache_key cs)).
Proof.
  destruct (run_calls_spec cs initial initial_ok) as (_ & _ & Hdom).
  rewrite <- (size_dom (D := gset bytes)), Hdom.
  rewrite <- (size_list_to_set (C := gset bytes) (remove_dups (omap cache_key cs)))
    by apply NoDup_remove_dups.
  f_equal. apply set_eq. intros k. cbn [initial _safe_quoters].
  rewrite dom_empty_L, elem_of_union, !elem_of_list_to_set, elem_of_remove_dups.
  split; [intros [H | H]; [done | by apply elem_of_empty in H] | by left].
Qed.

(** C8, as amended: on a reachable store, a sequence of [quote] and
    [quote_from_bytes] calls keeps every entry of [_safe_quoters], under
    its key and at its address; the keys afterwards are the keys before
    and the normalised safe sets of the calls that arrive at the lookup
    (byte input with an octet outside the effective safe set). From the
    empty cache that is one entry for each distinct such safe set, at most
    the number of distinct normalised safe sets of the calls, and it
    exceeds [MAX_CACHE_SIZE] when there are enough of them. Only
    [clear_cache] empties the cache. *)
Theorem cache_never_evicts st cs :
  reachable st →
  _safe_quoters st ⊆ _safe_quoters (run_calls cs st)
  ∧ dom (_safe_quoters (run_calls cs st))
    = list_to_set (omap cache_key cs) ∪ dom (_safe_quoters st)
  ∧ size (_safe_quoters (run_calls cs initial))
    = length (remove_dups (omap cache_key cs))
  ∧ (length (remove_dups (omap cache_key cs)) ≤ length (safe_sets cs))%nat
  ∧ _safe_quoters (clear_cache st) = ∅
  ∧ (MAX_CACHE_SIZE < size (_safe_quoters (run_calls many_safe_sets initial)))%nat.
Proof.
  intros Hst. apply reachable_ok in Hst.
  destruct (run_calls_spec cs st Hst) as (_ & Hsub & Hdom).
  split; [done |]. split; [done |]. split; [apply size_from_initial |].
  split; [apply cache_keys_safe_sets |]. split; [done |].
  rewrite size_from_initial. vm_compute. lia.
Qed.

Lemma cache_never_evicts_witness :
  reachable warmed
  ∧ _safe_quoters warmed !! bytes_lit "/" = Some 0%nat
  ∧ _safe_quoters (run_calls many_safe_sets warmed) !! bytes_lit "/" = Some 0%nat
  ∧ dom (_safe_quoters (run_calls many_safe_sets warmed))
    = list_to_set (omap cache_key many_safe_sets) ∪ dom (_safe_quoters warmed).
Proof.
  assert (reachable warmed) as Hst by (apply reachable_call; constructor).
  assert (_safe_quoters warmed !! bytes_lit "/" = Some 0%nat) as Hkey
    by (vm_compute; reflexivity).
  destruct (cache_never_evicts warmed many_safe_sets Hst) as (Hsub & Hdom & _).
  split; [exact Hst |]. split; [exact Hkey |].
  split; [exact (lookup_weaken _ _ _ _ Hkey Hsub) | exact Hdom].
Defined.

(** The claim as it stands: after calls with [n] distinct normalised safe
    sets the cache holds [n] entries. It fails for a call whose input has
    safe octets only. *)
Lemma cache_size_counterexample :
  ¬ (∀ cs, size (_safe_quoters (run_calls cs initial)) = length (safe_sets cs)).
Proof.
  intros H.
  specialize (H [QuoteFromBytes (VBytes (bytes_lit "abc")) slash]).
  rewrite size_from_initial in H. vm_compute in H. discriminate H.
Qed.

(** ** Usage errors and empty input *)

(** C7: [quote] raises [TypeError] when [encoding] or [errors] is given
    with a bytes input, and [quote_from_bytes] raises [TypeError] when its
    input is not a byte sequence; in both cases the store is unchanged. *)
Theorem usage_errors st :
  (∀ b safe encoding errors,
      encoding ≠ None ∨ errors ≠ None →
      quote (VBytes b) safe encoding errors st = (Raise TypeError, st))
  ∧ (∀ bs safe,
        (∀ b, bs ≠ VBytes b) →
        quote_from_bytes bs safe st = (Raise TypeError, st)).
Proof.
  split.
  - intros b safe encoding errors H. unfold quote.
    destruct encoding as [e|]; [done |].
    destruct errors as [p|]; [done |]. by destruct H.
  - intros bs safe H. destruct bs as [s | b | |]; try done.
    by destruct (H b).
Qed.

Lemma usage_errors_witness :
  quote (VBytes (bytes_lit "a b")) slash (Some UTF8) None initial
  = (Raise TypeError, initial)
  ∧ quote (VBytes (bytes_lit "a b")) slash None (Some Strict) initial
    = (Raise TypeError, initial)
  ∧ quote_from_bytes (VStr (str_lit "a b")) slash initial
    = (Raise TypeError, initial).
Proof.
  destruct (usage_errors initial) as [Hquote Hbytes].
  split; [apply Hquote; by left |]. split; [apply Hquote; by right |].
  apply Hbytes. intros b. discriminate.
Defined.

(** C9: on empty input [quote] and [quote_from_bytes] return the empty
    text and leave the store as it is, [unquote] returns the empty text and
    [unquote_to_bytes] the empty byte sequence, whatever the other
    arguments are. *)
Theorem empty_input st safe encoding errors encoding' errors' :
  quote (VStr []) safe encoding errors st = (Ok [], st)
  ∧ quote_from_bytes (VBytes []) safe st = (Ok [], st)
  ∧ unquote (VStr []) encoding' errors' = Ok []
  ∧ unquote_to_bytes (VBytes []) = Ok []
  ∧ unquote_to_bytes (VStr []) = Ok [].
Proof. by repeat split. Qed.

(** ** The text decoder against its specification *)

(** *** Where the decoder meets its specification *)

Lemma split_loop_ascii_runs s current :
  split_loop s [] current
  = flush (current ++ (ascii_runs s).1) ++ pieces (ascii_runs s).2.
Proof.
  revert current. induction s as [|c s IH]; intros current.
  - simpl. rewrite !app_nil_r. done.
  - rewrite split_loop_cons. cbn [ascii_runs].
    destruct (ascii_runs s) as [run rest] eqn:E. cbn [fst snd] in IH.
    destruct (decide (c <= 127)) as [Hc | Hc].
    + rewrite (bool_decide_true _ Hc). apply N.leb_le in Hc. rewrite Hc.
      cbn [fst snd]. by rewrite IH, <- app_assoc.
    + rewrite (bool_decide_false _ Hc). apply N.leb_nle in Hc. rewrite Hc.
      cbn [fst snd]. rewrite app_nil_r, (IH []). unfold pieces.
      rewrite fmap_cons. cbn [concat]. done.
Qed.

Lemma bytes_decode_nil encoding errors : bytes_decode encoding errors [] = Ok [].
Proof. by destruct encoding. Qed.

Lemma decode_run_nil encoding errors : decode_run encoding errors [] = Ok [].
Proof. unfold decode_run. simpl. apply bytes_decode_nil. Qed.

Lemma unquote_loop_cons encoding errors bit bits' res :
  unquote_loop encoding errors (bit :: bits') res
  = (text ← decode_run encoding errors bit;
     match bits' with
     | [] => Ok (res ++ [text])
     | bit' :: bits'' => unquote_loop encoding errors bits'' ((res ++ [text]) ++ [bit'])
     end).
Proof.
  unfold decode_run. cbn [unquote_loop].
  by destruct (unquote_to_bytes (VStr bit)).
Qed.

Lemma pieces_cons c run rest :
  pieces ((c, run) :: rest) = [c] :: flush run ++ pieces rest.
Proof. done. Qed.

Lemma unquote_loop_pieces (encoding : codec) (errors : policy) rest :
  ∀ (run : str) (res : list str),
    runs_nonempty rest →
    @concat N <$> unquote_loop encoding errors (run :: pieces rest) res
    = (first ← decode_run encoding errors run;
       others ← mapM (fun '(c, run) =>
                        text ← decode_run encoding errors run; Ok (c :: text)) rest;
       Ok (concat res ++ first ++ concat others)).
Proof.
  induction rest as [|[c r] rest IH]; intros run res Hrest;
    rewrite unquote_loop_cons.
  - destruct (decode_run encoding errors run) as [first | e]; [| done].
    cbn. by rewrite concat_app, app_nil_r; simpl; rewrite app_nil_r.
  - destruct Hrest as [Hr Hrest]. rewrite pieces_cons. cbn [mapM].
    destruct (decode_run encoding errors run) as [first | e]; [| done].
    cbn [mbind result_bind]. unfold flush. case_bool_decide as Hnil.
    + subst r. destruct Hr as [Hr | ->]; [done |].
      rewrite decode_run_nil. cbn.
      rewrite !concat_app. simpl. by rewrite <- !app_assoc.
    + cbn [app]. rewrite (IH r _ Hrest).
      destruct (decode_run encoding errors r) as [text | e]; [| done].
      cbn [mbind result_bind].
      destruct (mapM _ rest) as [others | e]; [| done].
      cbn. rewrite !concat_app. simpl. by rewrite <- !app_assoc.
Qed.

(** On an alternating text the decoder does what is specified. *)
Lemma unquote_alternating s encoding errors :
  alternating s → unquote (VStr s) encoding errors = unquote_spec s encoding errors.
Proof.
  intros [Hrun Hrest]. unfold unquote, unquote_spec.
  case_bool_decide; [done |]. unfold split_on_non_ascii.
  rewrite split_loop_ascii_runs.
  destruct (ascii_runs s) as [run rest]. cbn [fst snd app] in *.
  unfold flush. rewrite bool_decide_false by done. cbn [app].
  pose proof (unquote_loop_pieces (default UTF8 encoding) (default Replace errors)
                rest run [] Hrest) as Hloop.
  destruct (unquote_loop _ _ (run :: pieces rest) []) as [res | e];
    simpl in Hloop |- *; by rewrite <- Hloop.
Qed.

(** C1: [unquote] does not decode every ASCII run. On a text that starts
    with a non-ASCII character the segmenter yields no empty first run, so
    the loop takes the non-ASCII character for a run and appends the run
    after it as it is: [unquote] returns U+00E9 followed by [%41] unchanged,
    where the specified decoder gives U+00E9 followed by [A]. The same
    happens after two adjacent non-ASCII characters. *)
Theorem unquote_skips_run_after_non_ascii :
  split_on_non_ascii (233 :: str_lit "%41") = [[233]; str_lit "%41"]
  ∧ unquote (VStr (233 :: str_lit "%41")) None None = Ok (233 :: str_lit "%41")
  ∧ unquote_spec (233 :: str_lit "%41") None None = Ok (233 :: str_lit "A")
  ∧ unquote (VStr (str_lit "%41" ++ 233 :: 233 :: str_lit "%42")) None None
    = Ok (str_lit "A" ++ 233 :: 233 :: str_lit "%42")
  ∧ unquote_spec (str_lit "%41" ++ 233 :: 233 :: str_lit "%42") None None
    = Ok (str_lit "A" ++ 233 :: 233 :: str_lit "B").
Proof. repeat split; by vm_compute. Qed.

(** * Further properties of the module *)

Ltac nlia := zify; Z.to_euclidean_division_equations; lia.

(** ** The hex-escape table, in closed form *)

(** X1: [_hextobyte] holds exactly the pairs of hexadecimal digits, of
    either letter case and in any mixture, 484 keys in all; a pair is
    mapped to the one octet of its value in base 16, so that every octet
    is reached (by its two uppercase digits at least) and the letter case
    of a digit makes no difference. *)
Theorem hextobyte_table :
  (∀ k, _hextobyte !! k = hex_pair k)
  ∧ size _hextobyte = 484%nat
  ∧ (∀ v : byte, _hextobyte !! [hex_hi v; hex_lo v] = Some [v])
  ∧ (∀ a b a' b',
        hex_digit a = hex_digit a' → hex_digit b = hex_digit b' →
        _hextobyte !! [a; b] = _hextobyte !! [a'; b']).
Proof.
  split; [apply hextobyte_lookup |]. split; [by vm_compute |]. split.
  - intros v. rewrite hextobyte_lookup. simpl.
    destruct (hex_hi_lo_value v) as (-> & -> & ->). done.
  - intros a b a' b' Ha Hb. rewrite !hextobyte_lookup. simpl.
    by rewrite Ha, Hb.
Qed.

Lemma hextobyte_table_witness :
  hex_digit x61 = hex_digit x41 ∧ hex_digit x39 = hex_digit x39
  ∧ _hextobyte !! [x61; x39] = _hextobyte !! [x41; x39].
Proof.
  split; [reflexivity |]. split; [reflexivity |].
  destruct hextobyte_table as (_ & _ & _ & Hcase).
  apply Hcase; reflexivity.
Defined.

(** ** The byte unescaper on text and on other values *)

Lemma utf8_encode_char_None c : utf8_encode_char c = None ↔ surrogate c.
Proof.
  unfold utf8_encode_char, surrogate.
  destruct (N.ltb_spec c 0x80); [split; [done | lia] |].
  destruct (N.ltb_spec c 0x800); [split; [done | lia] |].
  destruct (N.leb_spec 0xD800 c); destruct (N.leb_spec c 0xDFFF); simpl.
  all: try (by split).
  all: destruct (c <? 0x10000); (split; [done | lia]).
Qed.

Lemma str_encode_utf8_strict_ok s :
  Forall (fun c => ¬ surrogate c) s → ∃ b, str_encode UTF8 Strict s = Ok b.
Proof.
  induction s as [|c s IH]; intros H; [by eexists |].
  apply Forall_cons in H as [Hc Hs]. destruct (IH Hs) as [b Hb].
  cbn [str_encode encode_char].
  destruct (utf8_encode_char c) as [bs|] eqn:E.
  - rewrite Hb. by eexists.
  - by apply utf8_encode_char_None in E.
Qed.

Lemma str_encode_utf8_strict_raise s :
  Exists surrogate s → str_encode UTF8 Strict s = Raise UnicodeEncodeError.
Proof.
  induction 1 as [c s Hc | c s _ IH]; cbn [str_encode encode_char].
  - apply utf8_encode_char_None in Hc. by rewrite Hc.
  - rewrite IH. by destruct (utf8_encode_char c).
Qed.

(** X2: on a text, [unquote_to_bytes] is [unquote_to_bytes] on its UTF-8
    encoding; it raises [UnicodeEncodeError] when the text holds a lone
    surrogate, and [AttributeError] on a value that has no [split]. *)
Theorem unquote_to_bytes_text (s : str) :
  (Forall (fun c => ¬ surrogate c) s →
   ∃ b, str_encode UTF8 Strict s = Ok b
        ∧ unquote_to_bytes (VStr s) = unquote_to_bytes (VBytes b))
  ∧ (Exists surrogate s → unquote_to_bytes (VStr s) = Raise UnicodeEncodeError)
  ∧ unquote_to_bytes VNone = Raise AttributeError
  ∧ (∀ n, unquote_to_bytes (VInt n) = Raise AttributeError).
Proof.
  split; [| split; [| split]].
  - intros Hs. destruct (str_encode_utf8_strict_ok s Hs) as [b Hb].
    exists b. split; [done |]. by rewrite unquote_to_bytes_str, Hb.
  - intros Hs. by rewrite unquote_to_bytes_str, str_encode_utf8_strict_raise.
  - done.
  - intros n. unfold unquote_to_bytes, falsy. by case_bool_decide.
Qed.

Lemma unquote_to_bytes_text_witness :
  Exists surrogate [0x61; 0xD800]
  ∧ unquote_to_bytes (VStr [0x61; 0xD800]) = Raise UnicodeEncodeError.
Proof.
  assert (Exists surrogate [0x61; 0xD800]) as H.
  { right. left. split; [reflexivity | discriminate]. }
  split; [exact H |].
  destruct (unquote_to_bytes_text [0x61; 0xD800]) as (_ & Hraise & _).
  exact (Hraise H).
Defined.

Lemma unescape_length item : (length (unescape item) ≤ S (length item))%nat.
Proof.
  destruct item as [|a [|b rest]]; simpl; [lia | lia |].
  destruct (hex_digit a), (hex_digit b); simpl; lia.
Qed.

Lemma percent_decode_length bits :
  (length (percent_decode bits) ≤ length (bytes_join pct bits))%nat.
Proof.
  unfold percent_decode, bytes_join. rewrite !length_app.
  apply Nat.add_le_mono_l. induction (tail bits) as [|item items IH]; [done |].
  rewrite !fmap_cons. cbn [concat]. rewrite !length_app.
  pose proof (unescape_length item). simpl. lia.
Qed.

(** X3: on a byte sequence [unquote_to_bytes] returns a sequence that is
    never longer than its input, and the input itself when it holds no
    ['%']. *)
Theorem unquote_to_bytes_shrinks (b : bytes) :
  ∃ r, unquote_to_bytes (VBytes b) = Ok r
       ∧ (length r ≤ length b)%nat
       ∧ (pct ∉ b → r = b).
Proof.
  eexists. split; [apply unquote_to_bytes_bytes |]. split.
  - rewrite <- (bytes_join_split pct b) at 2. apply percent_decode_length.
  - intros Hb. rewrite (bytes_split_no_sep_id _ _ Hb).
    unfold percent_decode. simpl. by rewrite app_nil_r.
Qed.

Lemma unquote_to_bytes_shrinks_witness :
  (pct ∉ bytes_lit "a+b")
  ∧ ∃ r, unquote_to_bytes (VBytes (bytes_lit "a+b")) = Ok r ∧ r = bytes_lit "a+b".
Proof.
  assert (pct ∉ bytes_lit "a+b") as H.
  { intros Hin. vm_compute in Hin.
    repeat (apply elem_of_cons in Hin as [Hin | Hin]; [discriminate Hin |]).
    by apply elem_of_nil in Hin. }
  split; [exact H |].
  destruct (unquote_to_bytes_shrinks (bytes_lit "a+b")) as (r & Hr & _ & Hsame).
  exists r. split; [exact Hr | exact (Hsame H)].
Defined.

(** ** Size of the quoted text *)

Lemma render_length eff b :
  length (render eff b) = if bool_decide (b ∈ eff) then 1%nat else 3%nat.
Proof. unfold render. by case_bool_decide. Qed.

Lemma quoted_length eff bs :
  (length bs ≤ length (concat (render eff <$> bs)) ≤ 3 * length bs)%nat
  ∧ (length (concat (render eff <$> bs)) = length bs
     ↔ Forall (fun b => b ∈ eff) bs).
Proof.
  induction bs as [|b bs [IHle IHeq]].
  - split; [simpl; lia |]. split; [constructor | done].
  - rewrite fmap_cons. cbn [concat]. rewrite length_app, render_length.
    cbn [length]. case_bool_decide as Hb.
    + split; [lia |]. rewrite Forall_cons. split.
      * intros H. split; [done |]. apply IHeq. lia.
      * intros [_ H]. apply IHeq in H. lia.
    + split; [lia |]. rewrite Forall_cons. split; [lia | tauto].
Qed.

(** X4: on a reachable store the text that [quote_from_bytes] returns has
    at least as many characters as the input has octets and at most three
    times as many; it has exactly as many when, and only when, every octet
    is in the effective safe set, and then it is the input read as text and
    the store is left as it is. *)
Theorem quote_from_bytes_length st bs safe k :
  reachable st → normalize_safe safe = Ok k →
  ∃ r, (quote_from_bytes (VBytes bs) safe st).1 = Ok r
       ∧ (length bs ≤ length r ≤ 3 * length bs)%nat
       ∧ (length r = length bs ↔ all_safe k bs)
       ∧ (all_safe k bs →
          r = chr <$> bs ∧ (quote_from_bytes (VBytes bs) safe st).2 = st).
Proof.
  intros Hst Hk. apply reachable_ok in Hst.
  eexists. split; [by apply quote_from_bytes_result |].
  destruct (quoted_length (effective_safe k) bs) as [Hle Heq].
  split; [done |]. split; [done |]. intros Hall.
  split; [by apply render_all_safe |].
  rewrite (quote_from_bytes_unfold _ _ _ _ Hk). by rewrite decide_True.
Qed.

Lemma quote_from_bytes_length_witness :
  reachable initial ∧ normalize_safe slash = Ok (bytes_lit "/")
  ∧ ∃ r, (quote_from_bytes (VBytes (bytes_lit "a b")) slash initial).1 = Ok r
         ∧ (length (bytes_lit "a b") ≤ length r ≤ 3 * length (bytes_lit "a b"))%nat.
Proof.
  split; [constructor |]. split; [reflexivity |].
  destruct (quote_from_bytes_length initial (bytes_lit "a b") slash (bytes_lit "/"))
    as (r & Hr & Hlen & _); [constructor | reflexivity |].
  exists r. split; [exact Hr | exact Hlen].
Defined.

(** ** The cache does not show in the results *)

Lemma quote_from_bytes_bad_safe_result bs safe e st :
  normalize_safe safe = Raise e →
  quote_from_bytes (VBytes bs) safe st
  = (if bool_decide (bs = []) then Ok [] else Raise e, st).
Proof.
  intros Hk. unfold quote_from_bytes.
  change (match safe with
          | VStr safe0 => str_encode ASCII Ignore safe0
          | VBytes safe0 => Ok (filter (fun c => Byte.to_N c < 128) safe0)
          | _ => Raise TypeError
          end) with (normalize_safe safe).
  rewrite Hk. by case_bool_decide.
Qed.

Lemma run_call_none_result c st st' :
  call_bytes c = None → (run_call c st).1 = (run_call c st').1.
Proof.
  destruct c as [string safe' encoding errors | bs' safe'];
    unfold call_bytes, run_call, quote.
  - destruct string as [s | b | |].
    + case_bool_decide; [done |]. by destruct (str_encode _ _ s).
    + by destruct encoding, errors.
    + by destruct encoding, errors.
    + by destruct encoding, errors.
  - by destruct bs'.
Qed.

(** X5: what a call of [quote] or [quote_from_bytes] returns, a text or
    an exception, is the same on every reachable store as on the store of
    a fresh interpreter: the cache, and [clear_cache], change no result. *)
Theorem cache_transparent c st :
  reachable st → (run_call c st).1 = (run_call c initial).1.
Proof.
  intros Hst. apply reachable_ok in Hst.
  destruct (call_bytes c) as [[bs safe]|] eqn:Ec.
  - rewrite !(run_call_bytes _ _ _ _ Ec).
    destruct (normalize_safe safe) as [k | e] eqn:Ek.
    + rewrite (quote_from_bytes_result st bs safe k Hst Ek).
      by rewrite (quote_from_bytes_result initial bs safe k initial_ok Ek).
    + by rewrite !(quote_from_bytes_bad_safe_result _ _ _ _ Ek).
  - by apply run_call_none_result.
Qed.

Lemma cache_transparent_witness :
  reachable warmed
  ∧ _safe_quoters warmed !! bytes_lit "/" = Some 0%nat
  ∧ (run_call (Quote (VStr (str_lit "c d?")) slash None None) warmed).1
    = (run_call (Quote (VStr (str_lit "c d?")) slash None None) initial).1.
Proof.
  assert (reachable warmed) as Hst by (apply reachable_call; constructor).
  split; [exact Hst |]. split; [vm_compute; reflexivity |].
  exact (cache_transparent _ _ Hst).
Defined.

(** ** Order of the argument checks *)



(** ** Keys of the cache *)

Lemma quote_from_bytes_alloc st bs safe k :
  cache_ok st → normalize_safe safe = Ok k → ¬ all_safe k bs →
  _safe_quoters st !! k = None →
  _safe_quoters (quote_from_bytes (VBytes bs) safe st).2
  = <[k := length (heap st)]> (_safe_quoters st)
  ∧ length (heap (quote_from_bytes (VBytes bs) safe st).2) = S (length (heap st)).
Proof.
  intros [Hmemo Hkeys] Hk Hall Hnone.
  rewrite (quote_from_bytes_unfold _ _ _ _ Hk), decide_False by done.
  unfold get_quoter. rewrite Hnone.
  destruct (quote_loop_spec (length (heap st)) bs []
              (State (heap st ++ [Quoter.__init__ k])
                     (<[k := length (heap st)]> (_safe_quoters st)))
              (Quoter.__init__ k))
    as (h' & q' & E & _ & Hlen & _).
  { cbn [heap]. apply Forall_app. split; [done |]. constructor; [| constructor].
    intros b res. unfold Quoter.__init__. simpl. by rewrite lookup_empty. }
  { cbn [heap]. by apply list_lookup_middle. }
  rewrite E. cbn [snd heap _safe_quoters] in *. split; [done |].
  rewrite Hlen, length_app. simpl. lia.
Qed.

Lemma effective_safe_ext k1 k2 :
  (∀ b, b ∈ k1 ↔ b ∈ k2) → effective_safe k1 = effective_safe k2.
Proof.
  intros H. unfold effective_safe. f_equal. apply set_eq. intros b.
  by rewrite !elem_of_list_to_set.
Qed.

(** X7: the text returned depends on the safe bytes as a set: two [safe]
    arguments with the same octets, in any order and multiplicity, give the
    same result. The cache however is keyed by the normalised byte
    sequence: when the two sequences differ and neither is stored yet, two
    calls on an input with an unsafe octet construct two [Quoter]s and
    store two entries. *)
Theorem safe_order_and_cache_keys st bs safe1 safe2 k1 k2 :
  reachable st → normalize_safe safe1 = Ok k1 → normalize_safe safe2 = Ok k2 →
  (∀ b, b ∈ k1 ↔ b ∈ k2) →
  let c1 := quote_from_bytes (VBytes bs) safe1 st in
  let c2 := quote_from_bytes (VBytes bs) safe2 c1.2 in
  c1.1 = c2.1
  ∧ (k1 ≠ k2 → ¬ all_safe k1 bs →
     _safe_quoters st !! k1 = None → _safe_quoters st !! k2 = None →
     size (_safe_quoters c2.2) = S (S (size (_safe_quoters st)))
     ∧ length (heap c2.2) = S (S (length (heap st)))).
Proof.
  intros Hst Hk1 Hk2 Hsame. apply reachable_ok in Hst. cbv zeta.
  pose proof (effective_safe_ext _ _ Hsame) as Heff.
  destruct (quote_from_bytes_spec st bs safe1 k1 Hst Hk1) as (st1 & E1 & Hok1 & _).
  split.
  - rewrite E1. cbn [fst snd].
    by rewrite (quote_from_bytes_result st1 bs safe2 k2 Hok1 Hk2), Heff.
  - intros Hne Hall Hnone1 Hnone2.
    destruct (quote_from_bytes_alloc st bs safe1 k1 Hst Hk1 Hall Hnone1)
      as [Hsq1 Hlen1].
    rewrite E1 in Hsq1, Hlen1 |- *. cbn [fst snd] in *.
    assert (¬ all_safe k2 bs) as Hall2.
    { unfold all_safe in *. by rewrite <- Heff. }
    assert (_safe_quoters st1 !! k2 = None) as Hnone2'.
    { by rewrite Hsq1, lookup_insert_ne. }
    destruct (quote_from_bytes_alloc st1 bs safe2 k2 Hok1 Hk2 Hall2 Hnone2')
      as [Hsq2 Hlen2].
    rewrite Hsq2, Hlen2, Hlen1, Hsq1. split; [| done].
    rewrite map_size_insert_None by (by rewrite lookup_insert_ne).
    by rewrite map_size_insert_None.
Qed.

Lemma safe_order_and_cache_keys_witness :
  reachable initial
  ∧ normalize_safe (VStr (str_lit "/:")) = Ok (bytes_lit "/:")
  ∧ normalize_safe (VStr (str_lit ":/")) = Ok (bytes_lit ":/")
  ∧ (quote_from_bytes (VBytes (bytes_lit "a b")) (VStr (str_lit "/:")) initial).1
    = (quote_from_bytes (VBytes (bytes_lit "a b")) (VStr (str_lit ":/"))
         (quote_from_bytes (VBytes (bytes_lit "a b")) (VStr (str_lit "/:")) initial).2).1.
Proof.
  split; [constructor |]. split; [reflexivity |]. split; [reflexivity |].
  apply (safe_order_and_cache_keys initial (bytes_lit "a b")
           (VStr (str_lit "/:")) (VStr (str_lit ":/")) (bytes_lit "/:") (bytes_lit ":/"));
    [constructor | reflexivity | reflexivity |].
  intros b. split; intros H.
  - apply elem_of_cons in H as [-> | H]; [right; left |].
    apply list_elem_of_singleton in H as ->. left.
  - apply elem_of_cons in H as [-> | H]; [right; left |].
    apply list_elem_of_singleton in H as ->. left.
Defined.

(** X8: [Quoter.get] memoises: a second [get] of the same octet returns
    the same text and leaves the object as the first left it; a [get] never
    changes the safe set nor the memo of another octet. *)
Theorem Quoter_get_stable q b :
  Quoter.get (Quoter.get q b).2 b = Quoter.get q b
  ∧ Quoter.cache (Quoter.get q b).2 !! b = Some (Quoter.get q b).1
  ∧ Quoter.safe (Quoter.get q b).2 = Quoter.safe q
  ∧ (∀ b', b' ≠ b →
       Quoter.cache (Quoter.get q b).2 !! b' = Quoter.cache q !! b').
Proof.
  unfold Quoter.get. destruct (Quoter.cache q !! b) as [res|] eqn:E; simpl.
  - rewrite E. done.
  - rewrite lookup_insert_eq. split; [done |]. split; [done |]. split; [done |].
    intros b' Hb'. by rewrite lookup_insert_ne.
Qed.

Lemma Quoter_get_stable_witness :
  x20 ≠ x2f
  ∧ Quoter.cache (Quoter.get (Quoter.__init__ []) x2f).2 !! x20
    = Quoter.cache (Quoter.__init__ []) !! x20.
Proof.
  split; [discriminate |].
  destruct (Quoter_get_stable (Quoter.__init__ []) x2f) as (_ & _ & _ & Hother).
  apply Hother. discriminate.
Defined.

(** X9: [clear_cache] forgets every [Quoter]: on a reachable store, the
    next call that needs one, even under a key that was stored before,
    constructs a new [Quoter], and the cache then holds that key alone,
    referring to the new object; the text returned is the same as without
    the clearing. *)
Theorem clear_cache_forgets st bs safe k :
  reachable st → normalize_safe safe = Ok k → ¬ all_safe k bs →
  let c := quote_from_bytes (VBytes bs) safe (clear_cache st) in
  _safe_quoters c.2 = {[k := length (heap st)]}
  ∧ length (heap c.2) = S (length (heap st))
  ∧ c.1 = (quote_from_bytes (VBytes bs) safe st).1.
Proof.
  intros Hst Hk Hall. cbv zeta.
  pose proof (clear_cache_ok st (reachable_ok st Hst)) as Hok.
  destruct (quote_from_bytes_alloc (clear_cache st) bs safe k Hok Hk Hall)
    as [Hsq Hlen]; [apply lookup_empty |].
  split; [exact Hsq |]. split; [exact Hlen |].
  rewrite (quote_from_bytes_result _ bs safe k Hok Hk).
  by rewrite (quote_from_bytes_result st bs safe k (reachable_ok st Hst) Hk).
Qed.

Lemma not_all_safe_space : ¬ all_safe (bytes_lit "/") (bytes_lit "a b").
Proof.
  intros H. apply Forall_cons in H as [_ H]. apply Forall_cons in H as [H _].
  revert H. apply (bool_decide_unpack _). by vm_compute.
Qed.

Lemma clear_cache_forgets_witness :
  reachable warmed ∧ normalize_safe slash = Ok (bytes_lit "/")
  ∧ ¬ all_safe (bytes_lit "/") (bytes_lit "a b")
  ∧ _safe_quoters warmed !! bytes_lit "/" = Some 0%nat
  ∧ length (heap warmed) = 1%nat
  ∧ _safe_quoters (quote_from_bytes (VBytes (bytes_lit "a b")) slash
                     (clear_cache warmed)).2
    = {[bytes_lit "/" := length (heap warmed)]}
  ∧ length (heap (quote_from_bytes (VBytes (bytes_lit "a b")) slash
                    (clear_cache warmed)).2) = S (length (heap warmed)).
Proof.
  assert (reachable warmed) as Hst by (apply reachable_call; constructor).
  destruct (clear_cache_forgets warmed (bytes_lit "a b") slash (bytes_lit "/")
              Hst eq_refl not_all_safe_space) as (Hsq & Hlen & _).
  split; [exact Hst |]. split; [reflexivity |].
  split; [exact not_all_safe_space |]. split; [vm_compute; reflexivity |].
  split; [vm_compute; reflexivity |]. split; [exact Hsq | exact Hlen].
Defined.

(** ** ['%'] in the safe set *)

Lemma upper_hexdig_always_safe h : h ∈ upper_hexdig → h ∈ _ALWAYS_SAFE.
Proof.
  intros H. unfold upper_hexdig in H. vm_compute in H.
  repeat (apply elem_of_cons in H as [-> | H];
          [apply (bool_decide_unpack _); by vm_compute |]).
  by apply elem_of_nil in H.
Qed.

Lemma render_bytes_requoted k k' b :
  (∀ c, c ∈ k → c ∈ k') → pct ∈ k' →
  Forall (fun c => c ∈ effective_safe k') (render_bytes (effective_safe k) b).
Proof.
  intros Hsub Hpct. unfold render_bytes. case_bool_decide as Hb.
  - constructor; [| constructor]. unfold effective_safe in *.
    apply elem_of_union in Hb as [Hb | Hb]; apply elem_of_union; [by left |].
    right. apply elem_of_list_to_set. apply Hsub. by apply elem_of_list_to_set in Hb.
  - destruct (hex_hi_lo_upper b) as [Hh Hl].
    apply upper_hexdig_always_safe in Hh, Hl. unfold effective_safe.
    repeat constructor; apply elem_of_union; [right | left | left]; try done.
    by apply elem_of_list_to_set.
Qed.

(** X10: the round trip needs ['%'] to be unsafe. When ['%'] is in the
    safe set, every three-octet input made of ['%'] and the two uppercase
    hexadecimal digits of an octet [x] is returned by [quote_from_bytes] as
    it is, and [unquote_to_bytes] takes that text to the single octet [x]. *)
Theorem pct_safe_breaks_roundtrip st safe k (x : byte) :
  reachable st → normalize_safe safe = Ok k → pct ∈ k →
  (quote_from_bytes (VBytes [pct; hex_hi x; hex_lo x]) safe st).1
  = Ok (chr <$> [pct; hex_hi x; hex_lo x])
  ∧ unquote_to_bytes (VStr (chr <$> [pct; hex_hi x; hex_lo x])) = Ok [x].
Proof.
  intros Hst Hk Hpct. apply reachable_ok in Hst.
  destruct (hex_hi_lo_upper x) as [Hh Hl]. split.
  - rewrite (quote_from_bytes_result st _ safe k Hst Hk).
    rewrite render_all_safe; [done |]. unfold effective_safe.
    apply upper_hexdig_always_safe in Hh, Hl.
    repeat constructor; apply elem_of_union; [right | left | left]; try done.
    by apply elem_of_list_to_set.
  - rewrite unquote_to_bytes_str, str_encode_utf8_ascii.
    + simpl. by rewrite unquote_to_bytes_bytes, percent_decode_escape.
    + apply upper_hexdig_plain in Hh as [_ Hh], Hl as [_ Hl].
      by repeat constructor.
Qed.

Lemma pct_safe_breaks_roundtrip_witness :
  reachable initial ∧ normalize_safe (VStr (str_lit "%")) = Ok [pct]
  ∧ pct ∈ [pct]
  ∧ unquote_to_bytes (VStr (chr <$> [pct; hex_hi x41; hex_lo x41])) = Ok [x41].
Proof.
  split; [constructor |]. split; [reflexivity |]. split; [left |].
  apply (pct_safe_breaks_roundtrip initial (VStr (str_lit "%")) [pct] x41);
    [constructor | reflexivity | left].
Defined.

(** X11: quoting is idempotent once ['%'] is safe. On reachable stores,
    the text that [quote_from_bytes] returns for a safe set is returned
    unchanged by [quote] under any safe set that contains ['%'] and the
    octets of the first. *)
Theorem requote_is_identity st st' bs safe safe' k k' :
  reachable st → reachable st' →
  normalize_safe safe = Ok k → normalize_safe safe' = Ok k' →
  (∀ c, c ∈ k → c ∈ k') → pct ∈ k' →
  ∃ r, (quote_from_bytes (VBytes bs) safe st).1 = Ok r
       ∧ (quote (VStr r) safe' None None st').1 = Ok r.
Proof.
  intros Hst Hst' Hk Hk' Hsub Hpct. apply reachable_ok in Hst, Hst'.
  eexists. split; [by apply quote_from_bytes_result |].
  rewrite quoted_render_bytes. unfold quote. case_bool_decide as Hnil.
  { by rewrite Hnil. }
  simpl default.
  rewrite str_encode_utf8_ascii
    by (apply render_bytes_ascii; by eapply normalize_safe_ascii).
  rewrite (quote_from_bytes_result st' _ safe' k' Hst' Hk').
  rewrite render_all_safe; [done |].
  apply Forall_concat, Forall_fmap, Forall_forall. intros b _.
  by apply render_bytes_requoted.
Qed.

Lemma requote_is_identity_witness :
  reachable initial
  ∧ normalize_safe slash = Ok (bytes_lit "/")
  ∧ normalize_safe (VStr (str_lit "/%")) = Ok (bytes_lit "/%")
  ∧ ∃ r, (quote_from_bytes (VBytes (bytes_lit "a b")) slash initial).1 = Ok r
         ∧ (quote (VStr r) (VStr (str_lit "/%")) None None initial).1 = Ok r.
Proof.
  split; [constructor |]. split; [reflexivity |]. split; [reflexivity |].
  apply (requote_is_identity initial initial (bytes_lit "a b") slash
           (VStr (str_lit "/%")) (bytes_lit "/") (bytes_lit "/%"));
    [constructor | constructor | reflexivity | reflexivity | | right; left].
  intros c Hc. apply list_elem_of_singleton in Hc as ->. left.
Defined.

(** ** The segmenter and the text decoder on particular texts *)

Lemma ascii_runs_ascii_only s : ascii_only s → ascii_runs s = (s, []).
Proof.
  induction s as [|c s IH]; [done |]. intros H.
  apply Forall_cons in H as [Hc Hs]. cbn [ascii_runs]. rewrite (IH Hs).
  apply N.leb_le in Hc. by rewrite Hc.
Qed.

(** X12: an ASCII-only text comes back from [split_on_non_ascii] as one
    piece (none when it is empty), and a text of non-ASCII characters only
    as one piece per character. *)
Theorem split_on_non_ascii_uniform (s : str) :
  (ascii_only s → split_on_non_ascii s = if bool_decide (s = []) then [] else [s])
  ∧ (Forall (fun c => 127 < c) s → split_on_non_ascii s = (fun c => [c]) <$> s).
Proof.
  unfold split_on_non_ascii. split.
  - intros Hs. rewrite split_loop_ascii_runs, (ascii_runs_ascii_only s Hs).
    simpl. by rewrite app_nil_r.
  - induction 1 as [|c s Hc _ IH]; [done |].
    rewrite split_loop_cons, bool_decide_false by lia. by rewrite IH.
Qed.

Lemma split_on_non_ascii_uniform_witness :
  ascii_only (str_lit "a%20b")
  ∧ split_on_non_ascii (str_lit "a%20b") = [str_lit "a%20b"].
Proof.
  assert (ascii_only (str_lit "a%20b")) as H.
  { repeat constructor; discriminate. }
  split; [exact H |].
  destruct (split_on_non_ascii_uniform (str_lit "a%20b")) as [Hascii _].
  exact (Hascii H).
Defined.

Lemma ascii_decode_ascii err bs :
  Forall is_ascii_byte bs → ascii_decode err bs = Ok (chr <$> bs).
Proof.
  induction bs as [|b bs IH]; [done |]. intros H.
  apply Forall_cons in H as [Hb Hbs]. simpl.
  apply N.ltb_lt in Hb. rewrite Hb. by rewrite (IH Hbs).
Qed.

Lemma bytes_decode_ascii encoding errors bs :
  Forall is_ascii_byte bs → bytes_decode encoding errors bs = Ok (chr <$> bs).
Proof.
  intros H. destruct encoding; simpl;
    [by apply utf8_decode_ascii | by apply ascii_decode_ascii | done].
Qed.

Lemma ascii_only_bytes s :
  ascii_only s →
  s = chr <$> (byte_of_N <$> s) ∧ Forall is_ascii_byte (byte_of_N <$> s).
Proof.
  induction s as [|c s IH]; [by split; [| constructor] |]. intros H.
  apply Forall_cons in H as [Hc Hs]. destruct (IH Hs) as [E Hascii].
  rewrite !fmap_cons. unfold chr at 1, is_ascii_byte.
  rewrite Forall_cons, to_of_N_byte by lia. split; [by f_equal | split; [lia | done]].
Qed.

Lemma unquote_ascii_only s encoding errors :
  ascii_only s →
  unquote (VStr s) encoding errors
  = decode_run (default UTF8 encoding) (default Replace errors) s.
Proof.
  intros Hs. destruct (decide (chr pct ∉ s)) as [Hpct | Hpct].
  - unfold unquote. rewrite bool_decide_true by done.
    destruct (ascii_only_bytes s Hs) as [E Hascii].
    unfold decode_run. rewrite unquote_to_bytes_str. rewrite E at 2.
    rewrite str_encode_utf8_ascii by done. simpl.
    rewrite unquote_to_bytes_bytes, bytes_split_no_sep_id.
    + unfold percent_decode. simpl. rewrite app_nil_r.
      by rewrite bytes_decode_ascii, <- E.
    + intros Hin. apply Hpct. rewrite E. by apply list_elem_of_fmap_2.
  - rewrite unquote_alternating.
    + unfold unquote_spec. rewrite bool_decide_false by done.
      rewrite (ascii_runs_ascii_only s Hs). simpl.
      destruct (decode_run _ _ s); simpl; by rewrite ?app_nil_r.
    + unfold alternating. rewrite (ascii_runs_ascii_only s Hs). simpl.
      split; [| done]. intros ->. apply Hpct. apply not_elem_of_nil.
Qed.

(** X13: for the encodings UTF-8, ASCII and Latin-1, on an ASCII-only
    text, with or without ['%'], [unquote] is [unquote_to_bytes] followed
    by the decoding of the octets under the given encoding and policy
    (UTF-8 and [replace] by default). *)
Theorem unquote_ascii_text (s : str) encoding errors :
  ascii_only s →
  unquote (VStr s) encoding errors
  = (raw ← unquote_to_bytes (VStr s);
     bytes_decode (default UTF8 encoding) (default Replace errors) raw).
Proof. apply unquote_ascii_only. Qed.

Lemma unquote_ascii_text_witness :
  ascii_only (str_lit "%E9") ∧ unquote (VStr (str_lit "%E9")) (Some LATIN1) None = Ok [233].
Proof.
  assert (ascii_only (str_lit "%E9")) as H.
  { repeat constructor; discriminate. }
  split; [exact H |].
  rewrite (unquote_ascii_text (str_lit "%E9") (Some LATIN1) None H).
  reflexivity.
Defined.

(** X14: on a text that starts with an ASCII character and has no two
    adjacent non-ASCII characters, [unquote] unescapes and decodes every
    ASCII run and keeps every non-ASCII character in its place: it returns
    what the decoder written from the specification returns, be it a text
    or an exception. *)
Theorem unquote_on_alternating_text (s : str) encoding errors :
  alternating s → unquote (VStr s) encoding errors = unquote_spec s encoding errors.
Proof. apply unquote_alternating. Qed.

Lemma unquote_on_alternating_text_witness :
  alternating (str_lit "caf%C3%A9 " ++ 233 :: str_lit "%21")
  ∧ unquote (VStr (str_lit "caf%C3%A9 " ++ 233 :: str_lit "%21")) None None
    = Ok (str_lit "caf" ++ 233 :: 32 :: 233 :: str_lit "!").
Proof.
  assert (alternating (str_lit "caf%C3%A9 " ++ 233 :: str_lit "%21")) as H.
  { split; [discriminate |]. simpl. split; [left; discriminate | exact I]. }
  split; [exact H |].
  rewrite (unquote_on_alternating_text _ None None H). reflexivity.
Defined.

(** X15: a lone surrogate at the start of a text that holds a ['%'] makes
    [unquote] raise [UnicodeEncodeError], under every encoding and policy:
    the loop hands the first piece, here the surrogate, to
    [unquote_to_bytes], which encodes it as UTF-8. *)
Theorem unquote_leading_surrogate c (t : str) encoding errors :
  surrogate c → chr pct ∈ t →
  unquote (VStr (c :: t)) encoding errors = Raise UnicodeEncodeError.
Proof.
  intros Hc Hpct. unfold unquote.
  rewrite bool_decide_false by (intros H; apply H; by right).
  unfold split_on_non_ascii. rewrite split_loop_cons.
  rewrite bool_decide_false by (destruct Hc; lia).
  change (flush [] ++ [c] :: split_loop t [] []) with ([c] :: split_loop t [] []).
  rewrite unquote_loop_cons. unfold decode_run.
  rewrite unquote_to_bytes_str, str_encode_utf8_strict_raise; [done |].
  by left.
Qed.

Lemma unquote_leading_surrogate_witness :
  surrogate 0xD800 ∧ chr pct ∈ str_lit "%41"
  ∧ unquote (VStr (0xD800 :: str_lit "%41")) None None = Raise UnicodeEncodeError.
Proof.
  assert (surrogate 0xD800) as Hc by (split; discriminate).
  assert (chr pct ∈ str_lit "%41") as Hpct by left.
  split; [exact Hc |]. split; [exact Hpct |].
  exact (unquote_leading_surrogate 0xD800 (str_lit "%41") None None Hc Hpct).
Defined.

(** ** UTF-8 there and back *)

(** One unfolding of the decoder. *)
Lemma utf8_decode_cons err b0 r1 :
  utf8_decode err (b0 :: r1)
  = ltac:(let body := eval cbn [utf8_decode] in (utf8_decode err (b0 :: r1)) in
          exact body).
Proof. reflexivity. Qed.

Lemma cont_tail y : (0x80 + y mod 0x40) mod 0x40 = y mod 0x40.
Proof. nlia. Qed.

Lemma lead_sub a q : a + q - a = q.
Proof. lia. Qed.

Ltac split_tests :=
  repeat (cbn [andb];
          match goal with
          | |- context [N.eqb ?a ?b] => destruct (N.eqb_spec a b); try nlia
          | |- context [N.ltb ?a ?b] => destruct (N.ltb_spec a b); try nlia
          | |- context [N.leb ?a ?b] => destruct (N.leb_spec a b); try nlia
          end).

Lemma utf8_decode_encode_char err c bs rest :
  c < 0x110000 → utf8_encode_char c = Some bs →
  utf8_decode err (bs ++ rest) = cons c <$> utf8_decode err rest.
Proof.
  intros Hc. unfold utf8_encode_char.
  destruct (N.ltb_spec c 0x80).
  { intros [= <-]. cbn [app]. rewrite utf8_decode_cons, to_of_N_byte by lia.
    by rewrite (proj2 (N.ltb_lt _ _)) by lia. }
  destruct (N.ltb_spec c 0x800).
  { intros [= <-]. cbn [app]. rewrite utf8_decode_cons. unfold between, cont.
    rewrite !to_of_N_byte by nlia. rewrite !cont_tail, !lead_sub.
    split_tests. do 2 f_equal. nlia. }
  destruct (N.leb_spec 0xD800 c); destruct (N.leb_spec c 0xDFFF);
    cbn [andb]; try done.
  all: destruct (N.ltb_spec c 0x10000); try nlia.
  all: intros [= <-]; cbn [app]; rewrite utf8_decode_cons; unfold between, cont;
    rewrite !to_of_N_byte by nlia; rewrite !cont_tail, !lead_sub;
    split_tests; do 2 f_equal; nlia.
Qed.

Lemma utf8_roundtrip s :
  encodable s →
  ∃ b, str_encode UTF8 Strict s = Ok b ∧ ∀ err, utf8_decode err b = Ok s.
Proof.
  induction s as [|c s IH]; intros H; [by exists [] |].
  apply Forall_cons in H as [[Hc Hns] Hs]. destruct (IH Hs) as (b & Eb & Db).
  cbn [str_encode encode_char]. destruct (utf8_encode_char c) as [bs|] eqn:E.
  - exists (bs ++ b). rewrite Eb. split; [done |]. intros err.
    by rewrite (utf8_decode_encode_char err c bs b Hc E), Db.
  - by apply utf8_encode_char_None in E.
Qed.

Lemma unquote_to_bytes_quoted k bs :
  Forall is_ascii_byte k → pct ∉ k →
  unquote_to_bytes (VStr (concat (render (effective_safe k) <$> bs))) = Ok bs.
Proof.
  intros Hascii Hpct.
  rewrite unquote_to_bytes_str, quoted_render_bytes.
  rewrite str_encode_utf8_ascii by (by apply render_bytes_ascii).
  simpl. rewrite unquote_to_bytes_bytes. f_equal.
  apply percent_decode_rendered. intros H.
  apply elem_of_union in H as [H | H].
  - by apply pct_not_always_safe.
  - by apply elem_of_list_to_set in H.
Qed.

(** X16: text comes back. On a reachable store, for every text without a
    lone surrogate and every safe set without ['%'], [quote] with the
    default UTF-8 encoding returns a text which [unquote] with the default
    encoding, under any error policy, takes back to the original. *)
Theorem unquote_quote_text st s safe k errors :
  reachable st → normalize_safe safe = Ok k → pct ∉ k → encodable s →
  ∃ r, (quote (VStr s) safe None None st).1 = Ok r
       ∧ unquote (VStr r) None errors = Ok s.
Proof.
  intros Hst Hk Hpct Hs. apply reachable_ok in Hst.
  destruct (utf8_roundtrip s Hs) as (b & Eb & Db).
  pose proof (normalize_safe_ascii _ _ Hk) as Hascii.
  exists (concat (render (effective_safe k) <$> b)). split.
  - unfold quote. case_bool_decide as Hnil.
    + subst s. simpl in Eb. by injection Eb as <-.
    + simpl default. rewrite Eb. by apply quote_from_bytes_result.
  - rewrite unquote_ascii_only by (by apply quoted_ascii).
    unfold decode_run. rewrite (unquote_to_bytes_quoted k b Hascii Hpct).
    simpl. apply Db.
Qed.

Lemma unquote_quote_text_witness :
  reachable initial ∧ normalize_safe slash = Ok (bytes_lit "/")
  ∧ (pct ∉ bytes_lit "/")
  ∧ encodable [0x61; 0x20; 0xE9; 0x20AC; 0x1F600]
  ∧ ∃ r, (quote (VStr [0x61; 0x20; 0xE9; 0x20AC; 0x1F600]) slash None None initial).1
         = Ok r
         ∧ unquote (VStr r) None None = Ok [0x61; 0x20; 0xE9; 0x20AC; 0x1F600].
Proof.
  assert (pct ∉ bytes_lit "/") as Hpct.
  { intros H. apply list_elem_of_singleton in H. discriminate H. }
  assert (encodable [0x61; 0x20; 0xE9; 0x20AC; 0x1F600]) as Hs.
  { repeat constructor; try reflexivity; intros [H1 H2]; by vm_compute in H1, H2. }
  split; [constructor |]. split; [reflexivity |]. split; [exact Hpct |].
  split; [exact Hs |].
  apply (unquote_quote_text initial _ slash (bytes_lit "/") None);
    [constructor | reflexivity | exact Hpct | exact Hs].
Defined.

(** ** The text decoder under the lenient policies *)

Lemma undecodable_total err tl :
  err ≠ Strict → (∃ r, tl = Ok r) → ∃ r, undecodable err tl = Ok r.
Proof. intros Herr [r ->]. destruct err; [done | |]; by eexists. Qed.

Lemma fmap_cons_total (c : N) (tl : result str) :
  (∃ r, tl = Ok r) → ∃ r, cons c <$> tl = Ok r.
Proof. intros [r ->]. by eexists. Qed.

Lemma utf8_decode_total err :
  err ≠ Strict → ∀ n bs, (length bs ≤ n)%nat → ∃ r, utf8_decode err bs = Ok r.
Proof.
  intros Herr. induction n as [|n IH]; intros bs Hlen.
  { destruct bs; [by eexists | simpl in Hlen; lia]. }
  destruct bs as [|b0 r1]; [by eexists |]. simpl in Hlen.
  assert (∀ tl, (length tl ≤ length r1)%nat → ∃ r, utf8_decode err tl = Ok r) as Htl.
  { intros tl Htl. apply IH. lia. }
  rewrite utf8_decode_cons.
  repeat case_match; subst; simpl in Htl;
    try apply (undecodable_total _ _ Herr); try apply fmap_cons_total;
    apply Htl; simpl; lia.
Qed.

Lemma ascii_decode_total err bs :
  err ≠ Strict → ∃ r, ascii_decode err bs = Ok r.
Proof.
  intros Herr. induction bs as [|b bs IH]; [by eexists |]. simpl.
  case_match; [by apply fmap_cons_total | by apply undecodable_total].
Qed.

Lemma bytes_decode_total encoding err bs :
  err ≠ Strict → ∃ r, bytes_decode encoding err bs = Ok r.
Proof.
  intros Herr. destruct encoding; simpl.
  - by apply (utf8_decode_total err Herr (length bs)).
  - by apply ascii_decode_total.
  - by eexists.
Qed.

Lemma decode_run_total encoding err run :
  err ≠ Strict → Forall (fun c => ¬ surrogate c) run →
  ∃ r, decode_run encoding err run = Ok r.
Proof.
  intros Herr Hrun. unfold decode_run. rewrite unquote_to_bytes_str.
  destruct (str_encode_utf8_strict_ok run Hrun) as [b ->]. simpl.
  rewrite unquote_to_bytes_bytes. simpl. by apply bytes_decode_total.
Qed.

Lemma unquote_loop_total encoding err :
  err ≠ Strict →
  ∀ n bits res,
    (length bits ≤ n)%nat → Forall (Forall (fun c => ¬ surrogate c)) bits →
    ∃ r, unquote_loop encoding err bits res = Ok r.
Proof.
  intros Herr. induction n as [|n IH]; intros bits res Hlen Hbits.
  { destruct bits; [by eexists | simpl in Hlen; lia]. }
  destruct bits as [|bit bits']; [by eexists |].
  apply Forall_cons in Hbits as [Hbit Hbits']. rewrite unquote_loop_cons.
  destruct (decode_run_total encoding err bit Herr Hbit) as [text ->]. simpl.
  destruct bits' as [|bit' bits'']; [by eexists |].
  apply Forall_cons in Hbits' as [_ Hbits'']. apply IH; [simpl in Hlen; lia | done].
Qed.

(** X17: for the encodings UTF-8, ASCII and Latin-1 and under the
    policies [replace] (the default) and [ignore], [unquote] returns a text
    for every text without a lone surrogate, whatever the malformed escapes
    and the undecodable octets in it. *)
Theorem unquote_never_raises (s : str) encoding errors :
  Forall (fun c => ¬ surrogate c) s → errors ≠ Some Strict →
  ∃ r, unquote (VStr s) encoding errors = Ok r.
Proof.
  intros Hs Herr. unfold unquote. case_bool_decide; [by eexists |].
  destruct (unquote_loop_total (default UTF8 encoding) (default Replace errors))
    with (n := length (split_on_non_ascii s)) (bits := split_on_non_ascii s)
         (res := @nil str) as [res ->].
  - destruct errors as [[]|]; done.
  - done.
  - apply Forall_concat. unfold split_on_non_ascii.
    by rewrite split_loop_concat.
  - by eexists.
Qed.

Lemma unquote_never_raises_witness :
  Forall (fun c => ¬ surrogate c) (233 :: str_lit "%FF%zz%")
  ∧ (None : option policy) ≠ Some Strict
  ∧ ∃ r, unquote (VStr (233 :: str_lit "%FF%zz%")) (Some ASCII) None = Ok r.
Proof.
  assert (Forall (fun c => ¬ surrogate c) (233 :: str_lit "%FF%zz%")) as Hs.
  { repeat constructor; intros [H1 H2]; by vm_compute in H1, H2. }
  split; [exact Hs |]. split; [discriminate |].
  apply (unquote_never_raises _ (Some ASCII) None Hs). discriminate.
Defined.

(** ** One [Quoter] for each key *)

Lemma run_call_alloc c st :
  cache_ok st →
  (_safe_quoters (run_call c st).2 = _safe_quoters st
   ∧ length (heap (run_call c st).2) = length (heap st))
  ∨ (∃ k, _safe_quoters st !! k = None
          ∧ _safe_quoters (run_call c st).2
            = <[k := length (heap st)]> (_safe_quoters st)
          ∧ length (heap (run_call c st).2) = S (length (heap st))).
Proof.
  intros Hok. destruct (call_bytes c) as [[bs safe]|] eqn:Ec.
  - rewrite (run_call_bytes _ _ _ _ Ec).
    destruct (normalize_safe safe) as [k | e] eqn:Ek.
    + destruct (decide (all_safe k bs)) as [Hall | Hall].
      { destruct (quote_from_bytes_spec st bs safe k Hok Ek)
          as (st' & E & _ & _ & _ & _ & Hsame & _).
        left. rewrite E. apply Hsame. by right. }
      destruct (_safe_quoters st !! k) as [a|] eqn:Ea.
      { destruct (quote_from_bytes_spec st bs safe k Hok Ek)
          as (st' & E & _ & _ & _ & _ & Hsame & _).
        left. rewrite E. apply Hsame. left. by eexists. }
      right. exists k. split; [done |].
      by apply quote_from_bytes_alloc.
    + left. by rewrite (quote_from_bytes_bad_safe _ _ _ _ Ek).
  - left. by rewrite (run_call_none _ _ Ec).
Qed.

Lemma one_quoter_per_key_from cs :
  ∀ st,
    cache_ok st →
    size (_safe_quoters st) = length (heap st) →
    (∀ k a, _safe_quoters st !! k = Some a → (a < length (heap st))%nat) →
    (∀ k1 k2 a, _safe_quoters st !! k1 = Some a →
                _safe_quoters st !! k2 = Some a → k1 = k2) →
    size (_safe_quoters (run_calls cs st)) = length (heap (run_calls cs st))
    ∧ (∀ k1 k2 a, _safe_quoters (run_calls cs st) !! k1 = Some a →
                  _safe_quoters (run_calls cs st) !! k2 = Some a → k1 = k2).
Proof.
  induction cs as [|c cs IH]; intros st Hok Hsize Hbound Hinj; [done |].
  change (run_calls (c :: cs) st) with (run_calls cs (run_call c st).2).
  destruct (run_call_spec c st Hok) as (Hok' & _).
  destruct (run_call_alloc c st Hok) as [[Esq Elen] | (k & Hk & Esq & Elen)];
    apply (IH _ Hok'); rewrite ?Esq, ?Elen; try done.
  - by rewrite map_size_insert_None, Hsize.
  - intros k' a. rewrite lookup_insert. case_decide.
    + intros [= <-]. lia.
    + intros H'. apply Hbound in H'. lia.
  - intros k1 k2 a. rewrite !lookup_insert. repeat case_decide; subst.
    + done.
    + intros [= <-] H2. apply Hbound in H2. lia.
    + intros H1 [= <-]. apply Hbound in H1. lia.
    + apply Hinj.
Qed.

(** X18: as long as [clear_cache] is not called, every [Quoter] that was
    constructed is in the cache, under one key: after any sequence of
    [quote] and [quote_from_bytes] calls from a fresh interpreter there are
    as many [Quoter] objects as keys in [_safe_quoters], and two keys never
    refer to the same object. *)
Theorem one_quoter_per_key cs :
  size (_safe_quoters (run_calls cs initial)) = length (heap (run_calls cs initial))
  ∧ (∀ k1 k2 a,
        _safe_quoters (run_calls cs initial) !! k1 = Some a →
        _safe_quoters (run_calls cs initial) !! k2 = Some a → k1 = k2).
Proof.
  apply one_quoter_per_key_from; [apply initial_ok | done | |].
  - intros k a. simpl. by rewrite lookup_empty.
  - intros k1 k2 a. simpl. by rewrite lookup_empty.
Qed.

Lemma one_quoter_per_key_witness :
  size (_safe_quoters (run_calls many_safe_sets initial))
  = length (heap (run_calls many_safe_sets initial)).
Proof. apply (one_quoter_per_key many_safe_sets). Defined.

(** ** Composition *)

(** X19: on a reachable store, for every safe set without ['%'],
    [unquote_to_bytes] takes the text that [quote] returns for a text back
    to the octets of that text under the encoding and policy given to
    [quote]. *)
Theorem unquote_to_bytes_quote_text st s safe k encoding errors b :
  reachable st → normalize_safe safe = Ok k → pct ∉ k →
  str_encode (default UTF8 encoding) (default Strict errors) s = Ok b →
  ∃ r, (quote (VStr s) safe encoding errors st).1 = Ok r
       ∧ unquote_to_bytes (VStr r) = Ok b.
Proof.
  intros Hst Hk Hpct Hb. apply reachable_ok in Hst.
  pose proof (normalize_safe_ascii _ _ Hk) as Hascii.
  exists (concat (render (effective_safe k) <$> b)).
  split; [| by apply unquote_to_bytes_quoted].
  unfold quote. case_bool_decide as Hnil.
  - subst s. simpl in Hb. by injection Hb as <-.
  - rewrite Hb. by apply quote_from_bytes_result.
Qed.

Lemma unquote_to_bytes_quote_text_witness :
  reachable initial ∧ normalize_safe slash = Ok (bytes_lit "/")
  ∧ (pct ∉ bytes_lit "/")
  ∧ str_encode LATIN1 Strict [0x61; 0xE9] = Ok [x61; xe9]
  ∧ ∃ r, (quote (VStr [0x61; 0xE9]) slash (Some LATIN1) None initial).1 = Ok r
         ∧ unquote_to_bytes (VStr r) = Ok [x61; xe9].
Proof.
  assert (pct ∉ bytes_lit "/") as Hpct.
  { intros H. apply list_elem_of_singleton in H. discriminate H. }
  split; [constructor |]. split; [reflexivity |]. split; [exact Hpct |].
  split; [reflexivity |].
  apply (unquote_to_bytes_quote_text initial [0x61; 0xE9] slash (bytes_lit "/")
           (Some LATIN1) None [x61; xe9]);
    [constructor | reflexivity | exact Hpct | reflexivity].
Defined.

Lemma bytes_split_app sep a b :
  bytes_split sep (a ++ sep :: b) = bytes_split sep a ++ bytes_split sep b.
Proof.
  induction a as [|c a IH]; cbn [app bytes_split].
  - by rewrite decide_True.
  - destruct (decide (c = sep)); [by rewrite IH |]. rewrite IH.
    by destruct (bytes_split_cons sep a) as (h & t & ->).
Qed.

(** X20: decoding can be cut before any ['%']: on byte sequences,
    [unquote_to_bytes] of a sequence followed by a sequence that starts
    with ['%'] is the concatenation of the two results. *)
Theorem unquote_to_bytes_app (a b : bytes) :
  ∃ ra rb,
    unquote_to_bytes (VBytes a) = Ok ra
    ∧ unquote_to_bytes (VBytes (pct :: b)) = Ok rb
    ∧ unquote_to_bytes (VBytes (a ++ pct :: b)) = Ok (ra ++ rb).
Proof.
  eexists _, _. split; [apply unquote_to_bytes_bytes |].
  split; [apply unquote_to_bytes_bytes |].
  rewrite unquote_to_bytes_bytes, bytes_split_app. f_equal.
  cbn [bytes_split]. rewrite decide_True by done.
  destruct (bytes_split_cons pct a) as (h & t & ->).
  unfold percent_decode. simpl. by rewrite fmap_app, concat_app, app_assoc.
Qed.

(** X21: quoting goes octet by octet: on a reachable store the text
    returned for a concatenation of two byte sequences is the concatenation
    of the texts returned for each. *)
Theorem quote_from_bytes_app st bs1 bs2 safe k :
  reachable st → normalize_safe safe = Ok k →
  ∃ r1 r2,
    (quote_from_bytes (VBytes bs1) safe st).1 = Ok r1
    ∧ (quote_from_bytes (VBytes bs2) safe st).1 = Ok r2
    ∧ (quote_from_bytes (VBytes (bs1 ++ bs2)) safe st).1 = Ok (r1 ++ r2).
Proof.
  intros Hst Hk. apply reachable_ok in Hst.
  eexists _, _. split; [by apply quote_from_bytes_result |].
  split; [by apply quote_from_bytes_result |].
  rewrite (quote_from_bytes_result st _ safe k Hst Hk).
  by rewrite fmap_app, concat_app.
Qed.

Lemma quote_from_bytes_app_witness :
  reachable initial ∧ normalize_safe slash = Ok (bytes_lit "/")
  ∧ ∃ r1 r2,
      (quote_from_bytes (VBytes (bytes_lit "a b")) slash initial).1 = Ok r1
      ∧ (quote_from_bytes (VBytes (bytes_lit "/c?")) slash initial).1 = Ok r2
      ∧ (quote_from_bytes (VBytes (bytes_lit "a b" ++ bytes_lit "/c?")) slash initial).1
        = Ok (r1 ++ r2).
Proof.
  split; [constructor |]. split; [reflexivity |].
  apply (quote_from_bytes_app initial (bytes_lit "a b") (bytes_lit "/c?")
           slash (bytes_lit "/")); [constructor | reflexivity].
Defined.
